(** * closer-ads-cron-service: the [/run] endpoint of [app.js]

    A shallow embedding of the Express service in [app.js]: the bearer
    regular expression, [verifyIdToken], the [POST /run] handler with its
    Firestore reads and merge-writes, and the responses it sends.  The
    pagination fetcher, which the repository keeps in its Python service,
    is modelled in [Fetcher].  Definitions come first, then the lemmas about
    them, then the properties of the service, one per claim. *)

From Stdlib Require Import ZArith Ascii String Sorted.
From stdpp Require Import gmap strings list fin_maps.

Local Open Scope string_scope.
Local Open Scope list_scope.
Local Open Scope Z_scope.

(** ** JavaScript values and control flow *)

Module Js.

(** The field values the handler reads and writes: JSON scalars.  A brand's
    [name] is a scalar field and [VNum] stands for an integral number; maps,
    arrays and timestamps as field values are outside the model. *)
Inductive value : Type :=
| VNull
| VBool (b : bool)
| VNum (n : Z)
| VStr (s : string).

#[global] Instance value_eq_dec : EqDecision value.
Proof. solve_decision. Defined.

(** [ToBoolean]: [null], [false], [0] and [''] are falsy. *)
Definition truthy (v : value) : bool :=
  match v with
  | VNull => false
  | VBool b => b
  | VNum n => negb (n =? 0)
  | VStr s => negb (String.eqb s "")
  end.

(** [x || y] on a property read: a missing property is [undefined]. *)
Definition or_else (x : option value) (y : value) : value :=
  match x with
  | Some v => if truthy v then v else y
  | None => y
  end.

(** The result of awaiting: a value, or a thrown [Error] with its message. *)
Inductive outcome (A : Type) : Type :=
| Return (a : A)
| Throw (message : string).
Arguments Return {A} a.
Arguments Throw {A} message.

End Js.
Export Js.

(** ** Firestore documents *)

Module Firestore.

(** A document is a map from field names to values; the database maps
    (collection, document id) to documents. *)
Abbreviation document := (gmap string value).
Abbreviation database := (gmap (string * string) document).

(** [docRef.set(data, {merge: true})] once the write is applied: the fields
    of [data] overwrite, every other field of an existing document stays,
    and a missing document is created. *)
Definition set_merge (coll docId : string) (data : document) (db : database)
  : database :=
  <[(coll, docId) := data ∪ default ∅ (db !! (coll, docId))]> db.

End Firestore.
Export Firestore.

(** ** The calls the service issues to its collaborators *)

Inductive call : Type :=
| VerifyIdToken (idToken audience : string)
| BrandsGet
| AdSet (docId : string) (data : document).

(** What the environment of one request decides. *)
Record env : Type := {
  (** [EXPECT_AUDIENCES], already split, trimmed and filtered *)
  EXPECT_AUDIENCES : list string;
  (** [oauth2Client.verifyIdToken] followed by [getPayload]: the payload, or
      [None] when either throws *)
  oauth_verify : string -> string -> option string;
  (** [firestore.collection('brands').get()]: the snapshot's documents as
      (id, data), or the error it rejects with *)
  brands_get : outcome (list (string * document));
  (** the error a [set] on the given [ads] document rejects with, if any *)
  set_rejects : string -> option string;
  (** [new Date().toISOString()] *)
  now : string
}.

(** ** Request handling as a computation over the database

    A computation reads and updates the database, records the calls it
    issues, and returns or throws. *)

Module Handler.

Definition M (A : Type) : Type := database -> outcome A * list call * database.

Definition ret {A} (a : A) : M A := fun db => (Return a, [], db).

Definition throw {A} (message : string) : M A := fun db => (Throw message, [], db).

Definition bind {A B} (m : M A) (k : A -> M B) : M B := fun db =>
  match m db with
  | (Return a, t, db1) =>
      match k a db1 with (r, t', db2) => (r, t ++ t', db2) end
  | (Throw e, t, db1) => (Throw e, t, db1)
  end.

Definition try_catch {A} (m : M A) (handler : string -> M A) : M A := fun db =>
  match m db with
  | (Return a, t, db1) => (Return a, t, db1)
  | (Throw e, t, db1) =>
      match handler e db1 with (r, t', db2) => (r, t ++ t', db2) end
  end.

Definition emit (c : call) : M unit := fun db => (Return tt, [c], db).

#[global] Instance M_ret : MRet M := @ret.
#[global] Instance M_bind : MBind M := fun A B k m => bind m k.

(** [for (const x of xs) ys.push(f x)] *)
Fixpoint for_each {A B} (f : A -> M B) (xs : list A) : M (list B) :=
  match xs with
  | [] => ret []
  | x :: xs' => y ← f x; ys ← for_each f xs'; ret (y :: ys)
  end.

End Handler.
Import Handler.

(** ** The auth gate *)

Module Auth.

(** [.] of a regular expression without the [s] flag matches anything but
    a line terminator; a header value is a sequence of code units below
    256, so only line feed and carriage return are concerned. *)
Definition is_line_terminator (c : ascii) : bool :=
  Ascii.eqb c "010" || Ascii.eqb c "013".

Fixpoint all_dot (s : string) : bool :=
  match s with
  | EmptyString => true
  | String c r => negb (is_line_terminator c) && all_dot r
  end.

Fixpoint strip_prefix (p s : string) : option string :=
  match p, s with
  | EmptyString, _ => Some s
  | String a p', String b s' => if Ascii.eqb a b then strip_prefix p' s' else None
  | String _ _, EmptyString => None
  end.

(** [authHeader.match(/^Bearer (.+)$/)]: the capture group, or [None] for a
    null match. *)
Definition bearer_match (authHeader : string) : option string :=
  match strip_prefix "Bearer " authHeader with
  | Some rest =>
      if negb (String.eqb rest "") && all_dot rest then Some rest else None
  | None => None
  end.

(** The loop of [verifyIdToken]: the first audience that verifies wins. *)
Fixpoint try_audiences (e : env) (token : string) (auds : list string)
  : M string :=
  match auds with
  | [] => throw "invalid-token"
  | aud :: rest =>
      emit (VerifyIdToken token aud);;
      match oauth_verify e token aud with
      | Some payload => ret payload
      | None => try_audiences e token rest
      end
  end.

Definition verifyIdToken (e : env) (token : string) : M string :=
  if String.eqb token "" then throw "no-token"
  else try_audiences e token (EXPECT_AUDIENCES e).

End Auth.
Export Auth.

(** ** [POST /run] *)

Module Run.

Record response : Type := {
  status : Z;
  body : list (string * value)
}.

(** [res.status(code).json(obj)]; [res.json(obj)] answers 200. *)
Definition json (code : Z) (obj : list (string * value)) : response :=
  {| status := code; body := obj |}.

Definition adPayload (e : env) (brandId : string) (brand : document)
  : document :=
  {[ "brandId" := VStr brandId;
     "brandName" := or_else (brand !! "name") VNull;
     "fetchedAt" := VStr (now e);
     "source" := VStr "ads-fetcher-service" ]}.

Definition adDocId (brandId : string) : string := "ad_" +:+ brandId.

(** [adDocRef.set(adPayload, {merge: true})]: the write is issued at once
    and the promise it returns is given by how it settles.  What a rejected
    write leaves in the store is not decided by [app.js]; the model takes it
    to leave the document as it was. *)
Definition adDocRef_set (e : env) (docId : string) (data : document)
  : M (outcome unit) := fun db =>
  match set_rejects e docId with
  | None => (Return (Return tt), [AdSet docId data], set_merge "ads" docId data db)
  | Some message => (Return (Throw message), [AdSet docId data], db)
  end.

(** [await Promise.all(ops)]: rejects as soon as one promise rejects, with
    the reason of the promise that rejects first in time.  The model takes
    the writes to settle in the order they were issued, so it reports the
    first rejected write of the list; the properties proved below hold for
    whichever rejected write is reported. *)
Fixpoint Promise_all (ops : list (outcome unit)) : M unit :=
  match ops with
  | [] => ret tt
  | Return _ :: rest => Promise_all rest
  | Throw message :: _ => throw message
  end.

Definition on_error (message : string) : M response :=
  if String.eqb message "no-token" || String.eqb message "invalid-token"
  then ret (json 401 [("error", VStr message)])
  else ret (json 500 [("error", VStr message)]).

(** The handler; [authorization] is [req.get('Authorization')]. *)
Definition run (e : env) (authorization : option string) : M response :=
  try_catch
    (let authHeader := default "" authorization in
     match bearer_match authHeader with
     | None => ret (json 401 [("error", VStr "missing-token")])
     | Some idToken =>
         verifyIdToken e idToken;;
         docs ← (emit BrandsGet;;
                  match brands_get e with
                  | Return docs => ret docs
                  | Throw message => throw message
                  end);
         ops ← for_each
                  (fun '(brandId, brand) =>
                     adDocRef_set e (adDocId brandId) (adPayload e brandId brand))
                  docs;
         Promise_all ops;;
         ret (json 200 [("status", VStr "ok");
                        ("processed", VNum (Z.of_nat (length ops)))])
     end)
    on_error.

End Run.
Export Run.

(** ** What the handler computes, in closed form

    The definitions below restate the handler without the monad; the
    lemma [run_eq] proves that [run] computes exactly [run_result]. *)

Section Closed_form.

Variable e : env.

(** The response the [catch] block sends. *)
Definition error_response (message : string) : response :=
  if String.eqb message "no-token" || String.eqb message "invalid-token"
  then json 401 [("error", VStr message)]
  else json 500 [("error", VStr message)].

Definition write_call (doc : string * document) : call :=
  AdSet (adDocId doc.1) (adPayload e doc.1 doc.2).

Definition settles (doc : string * document) : outcome unit :=
  match set_rejects e (adDocId doc.1) with
  | None => Return tt
  | Some message => Throw message
  end.

Definition apply_write (db : database) (doc : string * document) : database :=
  match set_rejects e (adDocId doc.1) with
  | None => set_merge "ads" (adDocId doc.1) (adPayload e doc.1 doc.2) db
  | Some _ => db
  end.

Fixpoint first_rejection (ops : list (outcome unit)) : option string :=
  match ops with
  | [] => None
  | Return _ :: rest => first_rejection rest
  | Throw message :: _ => Some message
  end.

(** The handler never throws: every path ends in a response. *)
Definition run_result (authorization : option string) (db : database)
  : response * list call * database :=
  match bearer_match (default "" authorization) with
  | None => (json 401 [("error", VStr "missing-token")], [], db)
  | Some idToken =>
      match verifyIdToken e idToken db with
      | (Throw message, t, _) => (error_response message, t, db)
      | (Return _, t, _) =>
          match brands_get e with
          | Throw message => (error_response message, t ++ [BrandsGet], db)
          | Return docs =>
              (match first_rejection (map settles docs) with
               | None => json 200 [("status", VStr "ok");
                                   ("processed", VNum (Z.of_nat (length docs)))]
               | Some message => error_response message
               end,
               t ++ BrandsGet :: map write_call docs,
               foldl apply_write db docs)
          end
      end
  end.

End Closed_form.

(** The calls of the gate are calls to the token verifier only. *)
Definition is_verify (c : call) : bool :=
  match c with VerifyIdToken _ _ => true | _ => false end.

Definition payload_fields : list string :=
  ["brandId"; "brandName"; "fetchedAt"; "source"].

(** The [set] calls of a trace, as (document id, data). *)
Definition writes_of (t : list call) : list (string * document) :=
  omap (fun c => match c with AdSet k d => Some (k, d) | _ => None end) t.

(** A brand's watermark. *)
Definition lastFetchedAt (db : database) (brandId : string) : option value :=
  db !! ("brands", brandId) ≫= (.!! "lastFetchedAt").

(** The same environment at another instant. *)
Definition at_time (e : env) (instant : string) : env :=
  {| EXPECT_AUDIENCES := EXPECT_AUDIENCES e;
     oauth_verify := oauth_verify e;
     brands_get := brands_get e;
     set_rejects := set_rejects e;
     now := instant |}.

(** ** The pagination fetcher *)

Module Fetcher.

(** Modelled from the spec: the transient [Ad] record of the data model;
    the sources have no ad type.  Timestamps are integers. *)
Record Ad : Type := {
  id : string;
  brandId : string;
  createdTime : Z;
  payload : string
}.

(** Modelled from the spec: what one call of the Ads API client returns,
    [{ ads, nextPageToken? }]. *)
Record page : Type := {
  ads : list Ad;
  nextPageToken : option string
}.

(** Modelled from the spec: the two failures of the Ads API client. *)
Inductive api_error : Type :=
| ApiError (status : Z) (body : string)
| RateLimitError.

(** Modelled from the spec: the Ads API client [fetchPage(pageId, since,
    pageToken?)] is not in the sources; it is one round trip whose result,
    once the bounded retries are exhausted, is a page or an error. *)
Definition fetchPage_t : Type :=
  string -> Z -> option string -> api_error + page.

(** Modelled from the spec: the hard maximum page count, "e.g., 50 pages". *)
Definition MAX_PAGES : nat := 50.

(** Modelled from the spec: an ad is new when [createdTime >= cutoff], and
    a page crosses the cutoff when it contains an ad strictly older. *)
Definition is_new (cutoff : Z) (ad : Ad) : bool := cutoff <=? createdTime ad.

Definition has_old (cutoff : Z) (pg : page) : bool :=
  existsb (fun ad => negb (is_new cutoff ad)) (ads pg).

(** Modelled from the spec: the pagination loop of [fetchNewAds], which is
    not in the sources.  It asks for successive pages and gathers the ads
    with [createdTime >= cutoff]; it stops on a page that contains an older
    ad, when there is no next page token, or when the page budget is spent,
    and returns what was gathered; a failed page fetch propagates and
    discards what was gathered.  The second component lists the pages
    fetched. *)
Fixpoint paginate (fetchPage : fetchPage_t) (pageId : string) (cutoff : Z)
    (budget : nat) (pageToken : option string)
  : (api_error + list Ad) * list page :=
  match budget with
  | O => (inr [], [])
  | S budget' =>
      match fetchPage pageId cutoff pageToken with
      | inl err => (inl err, [])
      | inr pg =>
          let fresh := List.filter (is_new cutoff) (ads pg) in
          if has_old cutoff pg then (inr fresh, [pg])
          else match nextPageToken pg with
               | None => (inr fresh, [pg])
               | Some next =>
                   match paginate fetchPage pageId cutoff budget' (Some next) with
                   | (inl err, fetched) => (inl err, pg :: fetched)
                   | (inr rest, fetched) => (inr (fresh ++ rest), pg :: fetched)
                   end
               end
      end
  end.

(** Modelled from the spec: [fetchNewAds(pageId, cutoff)], which restarts
    from the first page on every call. *)
Definition fetchNewAds (fetchPage : fetchPage_t) (pageId : string) (cutoff : Z)
  : (api_error + list Ad) * list page :=
  paginate fetchPage pageId cutoff MAX_PAGES None.

(** The longest prefix whose elements satisfy [p]. *)
Fixpoint take_while {A} (p : A -> bool) (l : list A) : list A :=
  match l with
  | [] => []
  | x :: l' => if p x then x :: take_while p l' else []
  end.

(** The precondition on the API: most recent first. *)
Definition descending (l : list Ad) : Prop :=
  StronglySorted (fun a b => createdTime b <= createdTime a) l.

(** The scenario of the spec: two ads after [T0] on the first page, an
    older one on the second, and a third page that exists. *)
Definition T0 : Z := 1000.
Definition mk_ad (n : string) (t : Z) : Ad :=
  {| id := n; brandId := "b1"; createdTime := t; payload := "" |}.
Definition scenario_api : fetchPage_t := fun _ _ tok =>
  match tok with
  | None => inr {| ads := [mk_ad "x" (T0 + 5); mk_ad "y" (T0 + 3)];
                   nextPageToken := Some "p2" |}
  | Some "p2" => inr {| ads := [mk_ad "z" (T0 - 1)]; nextPageToken := Some "p3" |}
  | Some _ => inr {| ads := [mk_ad "w" (T0 - 9)]; nextPageToken := None |}
  end.

End Fetcher.

(** ** Concrete requests *)

Module Samples.

Definition SERVICE_URL : string := "https://ads-fetcher.example".

Definition accept_good (token audience : string) : option string :=
  if String.eqb token "good" && String.eqb audience SERVICE_URL
  then Some "invoker" else None.

Definition brand_a : document :=
  {[ "name" := VStr "Acme"; "lastFetchedAt" := VStr "2025-01-01T00:00:00.000Z" ]}.
Definition brand_b : document := {[ "page_id" := VStr "444025482768886" ]}.

Definition db0 : database :=
  {[ ("brands", "a") := brand_a; ("brands", "b") := brand_b;
     ("ads", "ad_a") := {[ "faces" := VNum 3; "fetchedAt" := VStr "old" ]} ]}.

Definition healthy : env :=
  {| EXPECT_AUDIENCES := [SERVICE_URL];
     oauth_verify := accept_good;
     brands_get := Return [("a", brand_a); ("b", brand_b)];
     set_rejects := fun _ => None;
     now := "2025-02-01T00:00:00.000Z" |}.

(** The write for brand [b] is rejected, everything else works. *)
Definition b_fails : env :=
  {| EXPECT_AUDIENCES := [SERVICE_URL];
     oauth_verify := accept_good;
     brands_get := Return [("a", brand_a); ("b", brand_b)];
     set_rejects := fun k => if String.eqb k "ad_b" then Some "14 UNAVAILABLE" else None;
     now := "2025-02-01T00:00:00.000Z" |}.

(** The header of a request whose token verifies. *)
Definition hdr : option string := Some "Bearer good".

End Samples.

(** ** Configuration read at start-up

    [app.js] reads three environment variables when it is loaded.  A
    variable is [None] when unset; characters are code units below 256. *)

Module Config.

(** [WhiteSpace] and [LineTerminator] below 256: what [trim] strips. *)
Definition is_space (c : ascii) : bool :=
  Ascii.eqb c "009" || Ascii.eqb c "010" || Ascii.eqb c "011" ||
  Ascii.eqb c "012" || Ascii.eqb c "013" || Ascii.eqb c " " ||
  Ascii.eqb c "160".

Definition is_comma (c : ascii) : bool := Ascii.eqb c ",".

Fixpoint all_char (p : ascii -> bool) (s : string) : bool :=
  match s with
  | EmptyString => true
  | String c r => p c && all_char p r
  end.

Definition has_comma (s : string) : bool :=
  negb (all_char (fun c => negb (is_comma c)) s).

Definition head_char (s : string) : option ascii :=
  match s with
  | EmptyString => None
  | String c _ => Some c
  end.

Fixpoint last_char (s : string) : option ascii :=
  match s with
  | EmptyString => None
  | String c EmptyString => Some c
  | String _ r => last_char r
  end.

(** [s.split(',')]: never empty, [''.split(',')] is [['']]. *)
Fixpoint split_comma (s : string) : list string :=
  match s with
  | EmptyString => [EmptyString]
  | String c r =>
      if is_comma c then EmptyString :: split_comma r
      else match split_comma r with
           | piece :: pieces => String c piece :: pieces
           | [] => [String c EmptyString]
           end
  end.

Fixpoint trim_start (s : string) : string :=
  match s with
  | EmptyString => EmptyString
  | String c r => if is_space c then trim_start r else s
  end.

Fixpoint trim_end (s : string) : string :=
  match s with
  | EmptyString => EmptyString
  | String c r =>
      match trim_end r with
      | EmptyString => if is_space c then EmptyString else String c EmptyString
      | r' => String c r'
      end
  end.

(** [s.trim()] *)
Definition trim (s : string) : string := trim_end (trim_start s).

(** [(process.env.EXPECT_AUDIENCES || '').split(',').map(s => s.trim())
    .filter(Boolean)] *)
Definition parse_audiences (EXPECT_AUDIENCES_var : option string) : list string :=
  List.filter (fun s => negb (String.eqb s ""))
              (map trim (split_comma (default "" EXPECT_AUDIENCES_var))).

(** [x || y] on environment variables: unset and [''] are falsy. *)
Definition or_var (x y : option string) : option string :=
  match x with
  | Some s => if String.eqb s "" then y else x
  | None => y
  end.

(** [process.env.GCP_PROJECT || process.env.GCLOUD_PROJECT ||
    'closer-video-similarity'] *)
Definition projectId (GCP_PROJECT GCLOUD_PROJECT : option string) : option string :=
  or_var (or_var GCP_PROJECT GCLOUD_PROJECT) (Some "closer-video-similarity").

(** [l.join(',')], the inverse direction of [split_comma]. *)
Fixpoint join_comma (l : list string) : string :=
  match l with
  | [] => EmptyString
  | [a] => a
  | a :: rest => a +:+ String "," (join_comma rest)
  end.

(** A value made of commas and white space only. *)
Definition blank (s : string) : bool :=
  all_char (fun c => is_space c || is_comma c) s.

(** An audience as the parser leaves it: not empty, no comma, no white
    space at either end. *)
Definition clean (a : string) : Prop :=
  a <> "" /\ has_comma a = false /\
  (forall c, head_char a = Some c -> is_space c = false) /\
  (forall c, last_char a = Some c -> is_space c = false).

End Config.

(** ** Shapes of a trace *)

Definition is_set (c : call) : bool :=
  match c with AdSet _ _ => true | _ => false end.

(** The same environment with another answer to the brands query. *)
Definition with_brands (e : env) (docs : list (string * document)) : env :=
  {| EXPECT_AUDIENCES := EXPECT_AUDIENCES e;
     oauth_verify := oauth_verify e;
     brands_get := Return docs;
     set_rejects := set_rejects e;
     now := now e |}.

(** The same environment whose brands query is rejected. *)
Definition with_brands_error (e : env) (message : string) : env :=
  {| EXPECT_AUDIENCES := EXPECT_AUDIENCES e;
     oauth_verify := oauth_verify e;
     brands_get := Throw message;
     set_rejects := set_rejects e;
     now := now e |}.

(** The environment as [app.js] configures it from the variable
    [EXPECT_AUDIENCES]. *)
Definition configured (EXPECT_AUDIENCES_var : option string) (e : env) : env :=
  {| EXPECT_AUDIENCES := Config.parse_audiences EXPECT_AUDIENCES_var;
     oauth_verify := oauth_verify e;
     brands_get := brands_get e;
     set_rejects := set_rejects e;
     now := now e |}.

(** * Properties *)

(** ** The regular expression *)

Section Bearer.

Lemma strip_prefix_Some p s rest :
  strip_prefix p s = Some rest <-> s = p +:+ rest.
Proof.
  revert s. induction p as [|a p IH]; intros s; simpl.
  - split; [intros [= ->]; reflexivity | intros ->; reflexivity].
  - destruct s as [|b s]; [split; discriminate|].
    destruct (Ascii.eqb_spec a b) as [->|Hne].
    + rewrite IH. split; [intros ->; reflexivity | intros [= ->]; reflexivity].
    + split; [discriminate | intros [= <- _]; contradiction].
Qed.

Lemma append_cancel p a b : p +:+ a = p +:+ b -> a = b.
Proof.
  intros H. assert (strip_prefix p (p +:+ a) = Some b) as Hb
    by (apply strip_prefix_Some; exact H).
  assert (strip_prefix p (p +:+ a) = Some a) as Ha
    by (apply strip_prefix_Some; reflexivity).
  congruence.
Qed.

Lemma eqb_empty_false s : String.eqb s "" = false <-> s <> "".
Proof. destruct s; simpl; split; congruence. Qed.

(** The match succeeds exactly on ["Bearer "] followed by a non-empty run
    of characters other than line terminators, which is the capture. *)
Lemma bearer_match_Some h tok :
  bearer_match h = Some tok <->
  h = "Bearer " +:+ tok /\ tok <> "" /\ all_dot tok = true.
Proof.
  unfold bearer_match.
  destruct (strip_prefix "Bearer " h) as [rest|] eqn:Hp.
  - apply strip_prefix_Some in Hp. subst h.
    destruct (String.eqb rest "") eqn:He; simpl.
    + apply String.eqb_eq in He. subst rest.
      split; [discriminate|]. intros (Heq & Hne & _).
      apply append_cancel in Heq. congruence.
    + apply eqb_empty_false in He.
      destruct (all_dot rest) eqn:Hd.
      * split; [intros [= <-]; auto|].
        intros (Heq & _). apply append_cancel in Heq. congruence.
      * split; [discriminate|].
        intros (Heq & _ & Hd'). apply append_cancel in Heq. congruence.
  - split; [discriminate|]. intros (-> & _).
    assert (strip_prefix "Bearer " ("Bearer " +:+ tok) = Some tok) as Hs
      by (apply strip_prefix_Some; reflexivity).
    congruence.
Qed.

Lemma bearer_match_nonempty h tok : bearer_match h = Some tok -> tok <> "".
Proof. intros H. apply bearer_match_Some in H. tauto. Qed.

Lemma bearer_match_None h :
  (forall tok, tok <> "" -> h <> "Bearer " +:+ tok) -> bearer_match h = None.
Proof.
  intros H. destruct (bearer_match h) as [tok|] eqn:Hm; [|reflexivity].
  apply bearer_match_Some in Hm. destruct Hm as (-> & Hne & _).
  exfalso. exact (H tok Hne eq_refl).
Qed.

End Bearer.

(** ** The closed form is what the handler computes *)

Section Closed_form_correct.

Variable e : env.

Lemma on_error_eq message db :
  on_error message db = (Return (error_response message), [], db).
Proof.
  unfold on_error, error_response.
  destruct (String.eqb message "no-token" || String.eqb message "invalid-token");
    reflexivity.
Qed.

Lemma try_audiences_db tok auds db :
  (try_audiences e tok auds db).2 = db.
Proof.
  induction auds as [|aud rest IH]; [reflexivity|].
  simpl. unfold mbind, M_bind, bind, emit. 
  destruct (oauth_verify e tok aud); [reflexivity|].
  destruct (try_audiences e tok rest db) as [[r t] db']. simpl in *. exact IH.
Qed.

Lemma verifyIdToken_db tok db : (verifyIdToken e tok db).2 = db.
Proof.
  unfold verifyIdToken. destruct (String.eqb tok ""); [reflexivity|].
  apply try_audiences_db.
Qed.

Lemma for_each_writes docs db :
  for_each (fun '(brandId, brand) =>
              adDocRef_set e (adDocId brandId) (adPayload e brandId brand))
           docs db
  = (Return (map (settles e) docs), map (write_call e) docs, foldl (apply_write e) db docs).
Proof.
  revert db. induction docs as [|[id d] docs IH]; intros db; [reflexivity|].
  cbn [for_each foldl map]. unfold mbind, M_bind, bind, adDocRef_set.
  destruct (set_rejects e (adDocId id)) as [msg|] eqn:Hs; rewrite IH;
    cbn [ret]; rewrite app_nil_r.
  - assert (settles e (id, d) = Throw msg) as ->
      by (unfold settles; cbn [fst]; rewrite Hs; reflexivity).
    assert (apply_write e db (id, d) = db) as ->
      by (unfold apply_write; cbn [fst]; rewrite Hs; reflexivity).
    reflexivity.
  - assert (settles e (id, d) = Return tt) as ->
      by (unfold settles; cbn [fst]; rewrite Hs; reflexivity).
    assert (apply_write e db (id, d)
            = set_merge "ads" (adDocId id) (adPayload e id d) db) as ->
      by (unfold apply_write; cbn [fst snd]; rewrite Hs; reflexivity).
    reflexivity.
Qed.

Lemma Promise_all_eq ops db :
  Promise_all ops db
  = (match first_rejection ops with
     | None => Return tt
     | Some message => Throw message
     end, [], db).
Proof.
  induction ops as [|[[]|msg] ops IH]; simpl; auto.
Qed.

Lemma run_eq authorization db :
  run e authorization db =
  let '(r, t, db') := run_result e authorization db in (Return r, t, db').
Proof.
  unfold run, run_result, try_catch.
  destruct (bearer_match (default "" authorization)) as [tok|]; [|reflexivity].
  unfold mbind, M_bind, bind.
  pose proof (verifyIdToken_db tok db) as Hdb.
  destruct (verifyIdToken e tok db) as [[[p|msg] t] db1]; simpl in Hdb; subst db1.
  - unfold emit. destruct (brands_get e) as [docs|msg]; simpl.
    + rewrite for_each_writes, Promise_all_eq.
      destruct (first_rejection (map (settles e) docs)) as [msg|]; simpl.
      * rewrite on_error_eq. 
        rewrite !app_nil_r. reflexivity.
      * rewrite length_map, !app_nil_r. reflexivity.
    + rewrite on_error_eq, !app_nil_r. reflexivity.
  - rewrite on_error_eq, app_nil_r. reflexivity.
Qed.

End Closed_form_correct.

(** ** The auth gate *)

Section Auth_gate.

Variable e : env.

Lemma try_audiences_accept tok auds db :
  (exists aud, aud ∈ auds /\ is_Some (oauth_verify e tok aud)) ->
  exists payload t, try_audiences e tok auds db = (Return payload, t, db).
Proof.
  induction auds as [|a rest IH]; intros (aud & Hin & Hok).
  - apply elem_of_nil in Hin. contradiction.
  - cbn [try_audiences]. unfold mbind, M_bind, bind, emit.
    destruct (oauth_verify e tok a) as [p|] eqn:Ha.
    + exists p, [VerifyIdToken tok a]. reflexivity.
    + apply elem_of_cons in Hin. destruct Hin as [->|Hin].
      * rewrite Ha in Hok. destruct Hok as [? [=]].
      * destruct IH as (p & t & Heq); [eauto|].
        rewrite Heq. eauto.
Qed.

Lemma try_audiences_reject tok auds db :
  (forall aud, aud ∈ auds -> oauth_verify e tok aud = None) ->
  try_audiences e tok auds db
  = (Throw "invalid-token", map (VerifyIdToken tok) auds, db).
Proof.
  induction auds as [|a rest IH]; intros Hall; [reflexivity|].
  cbn [try_audiences]. unfold mbind, M_bind, bind, emit.
  rewrite (Hall a) by apply list_elem_of_here.
  rewrite IH; [reflexivity|].
  intros aud Hin. apply Hall. apply list_elem_of_further. exact Hin.
Qed.

Lemma try_audiences_throws tok auds db message :
  (try_audiences e tok auds db).1.1 = Throw message ->
  message = "invalid-token".
Proof.
  induction auds as [|a rest IH].
  - intros [= <-]. reflexivity.
  - cbn [try_audiences]. unfold mbind, M_bind, bind, emit.
    destruct (oauth_verify e tok a); [discriminate|].
    destruct (try_audiences e tok rest db) as [[r t1] db1]. exact IH.
Qed.

Lemma try_audiences_calls tok auds db :
  forallb is_verify (try_audiences e tok auds db).1.2 = true.
Proof.
  induction auds as [|a rest IH]; [reflexivity|].
  cbn [try_audiences]. unfold mbind, M_bind, bind, emit.
  destruct (oauth_verify e tok a); [reflexivity|].
  destruct (try_audiences e tok rest db) as [[r t1] db1]. exact IH.
Qed.

Lemma verifyIdToken_calls tok db :
  forallb is_verify (verifyIdToken e tok db).1.2 = true.
Proof.
  unfold verifyIdToken. destruct (String.eqb tok ""); [reflexivity|].
  apply try_audiences_calls.
Qed.

Lemma verifyIdToken_throws tok db message t db' :
  tok <> "" ->
  verifyIdToken e tok db = (Throw message, t, db') ->
  message = "invalid-token".
Proof.
  intros Hne. unfold verifyIdToken.
  apply eqb_empty_false in Hne. rewrite Hne.
  intros H. apply (try_audiences_throws tok (EXPECT_AUDIENCES e) db).
  rewrite H. reflexivity.
Qed.

End Auth_gate.

(** ** The writes of a run *)

Section Writes.

Variable e : env.

Lemma adDocId_inj a b : adDocId a = adDocId b -> a = b.
Proof. unfold adDocId. apply append_cancel. Qed.

Lemma ads_key_inj (a b : string) :
  ("ads", adDocId a) = ("ads", adDocId b) -> a = b.
Proof.
  intros H. apply (f_equal snd) in H. cbn [snd] in H.
  apply adDocId_inj. exact H.
Qed.

Lemma adPayload_other brandId brand f :
  f ∉ payload_fields -> adPayload e brandId brand !! f = None.
Proof.
  unfold payload_fields. rewrite !not_elem_of_cons.
  intros (H1 & H2 & H3 & H4 & _). unfold adPayload.
  rewrite !lookup_insert_ne by congruence.
  apply lookup_singleton_ne. congruence.
Qed.

Lemma adPayload_brandId brandId brand :
  adPayload e brandId brand !! "brandId" = Some (VStr brandId).
Proof. unfold adPayload. apply lookup_insert_eq. Qed.

Lemma adPayload_brandName brandId brand :
  adPayload e brandId brand !! "brandName"
  = Some (or_else (brand !! "name") VNull).
Proof.
  unfold adPayload. rewrite lookup_insert_ne by discriminate.
  apply lookup_insert_eq.
Qed.

Lemma adPayload_fetchedAt brandId brand :
  adPayload e brandId brand !! "fetchedAt" = Some (VStr (now e)).
Proof.
  unfold adPayload. rewrite !lookup_insert_ne by discriminate.
  apply lookup_insert_eq.
Qed.

Lemma adPayload_source brandId brand :
  adPayload e brandId brand !! "source" = Some (VStr "ads-fetcher-service").
Proof.
  unfold adPayload. rewrite !lookup_insert_ne by discriminate.
  apply lookup_singleton_eq.
Qed.

Lemma apply_write_other db doc K :
  K <> ("ads", adDocId doc.1) -> apply_write e db doc !! K = db !! K.
Proof.
  intros HK. unfold apply_write, set_merge.
  destruct (set_rejects e (adDocId doc.1)); [reflexivity|].
  apply lookup_insert_ne. congruence.
Qed.

Lemma apply_write_accepted db doc :
  set_rejects e (adDocId doc.1) = None ->
  apply_write e db doc !! ("ads", adDocId doc.1)
  = Some (adPayload e doc.1 doc.2 ∪ default ∅ (db !! ("ads", adDocId doc.1))).
Proof.
  intros Hs. unfold apply_write, set_merge. rewrite Hs.
  apply lookup_insert_eq.
Qed.

(** Documents that no write addresses are untouched. *)
Lemma writes_other docs db K :
  (forall id, id ∈ docs.*1 -> K <> ("ads", adDocId id)) ->
  foldl (apply_write e) db docs !! K = db !! K.
Proof.
  revert db. induction docs as [|doc docs IH]; intros db HK; [reflexivity|].
  cbn [foldl]. rewrite IH.
  - apply apply_write_other. apply HK. rewrite fmap_cons. apply list_elem_of_here.
  - intros id Hin. apply HK. rewrite fmap_cons. apply list_elem_of_further. exact Hin.
Qed.

Lemma writes_other_collection docs db coll k :
  coll <> "ads" -> foldl (apply_write e) db docs !! (coll, k) = db !! (coll, k).
Proof. intros Hc. apply writes_other. intros id _. congruence. Qed.

(** Fields outside the payload keep their value in every document. *)
Lemma writes_frame docs db K f :
  f ∉ payload_fields ->
  default ∅ (foldl (apply_write e) db docs !! K) !! f = default ∅ (db !! K) !! f.
Proof.
  intros Hf. revert db. induction docs as [|doc docs IH]; intros db; [reflexivity|].
  cbn [foldl]. rewrite IH.
  destruct (decide (K = ("ads", adDocId doc.1))) as [->|HK].
  - unfold apply_write, set_merge.
    destruct (set_rejects e (adDocId doc.1)); [reflexivity|].
    rewrite lookup_insert_eq. cbn [default from_option id].
    rewrite lookup_union_r; [reflexivity|]. apply adPayload_other. exact Hf.
  - rewrite apply_write_other by exact HK. reflexivity.
Qed.

(** With distinct brand ids, an accepted write leaves its document as the
    merge of the payload into what was there. *)
Lemma writes_accepted docs db id brand :
  NoDup docs.*1 ->
  (id, brand) ∈ docs ->
  set_rejects e (adDocId id) = None ->
  foldl (apply_write e) db docs !! ("ads", adDocId id)
  = Some (adPayload e id brand ∪ default ∅ (db !! ("ads", adDocId id))).
Proof.
  revert db. induction docs as [|doc docs IH]; intros db Hnd Hin Hs.
  - apply elem_of_nil in Hin. contradiction.
  - rewrite fmap_cons in Hnd. apply NoDup_cons in Hnd. destruct Hnd as [Hfresh Hnd].
    cbn [foldl]. apply elem_of_cons in Hin. destruct Hin as [<-|Hin].
    + rewrite writes_other.
      * apply (apply_write_accepted db (id, brand)). exact Hs.
      * intros id' Hin' Heq. apply ads_key_inj in Heq. cbn [fst] in Hfresh.
        subst id'. exact (Hfresh Hin').
    + rewrite IH by assumption.
      rewrite apply_write_other; [reflexivity|].
      intros Heq. apply ads_key_inj in Heq. subst id.
      apply Hfresh. apply (list_elem_of_fmap_2 fst) in Hin. exact Hin.
Qed.

(** Without assuming distinct ids: an accepted write leaves a document
    whose payload fields are the run's. *)
Lemma writes_present docs db id :
  id ∈ docs.*1 ->
  set_rejects e (adDocId id) = None ->
  exists d, foldl (apply_write e) db docs !! ("ads", adDocId id) = Some d /\
            d !! "brandId" = Some (VStr id) /\
            d !! "fetchedAt" = Some (VStr (now e)) /\
            d !! "source" = Some (VStr "ads-fetcher-service") /\
            is_Some (d !! "brandName").
Proof.
  intros Hin Hs. revert db Hin.
  induction docs as [|doc docs IH] using rev_ind; intros db Hin.
  - apply elem_of_nil in Hin. contradiction.
  - rewrite foldl_app. cbn [foldl].
    destruct (decide (doc.1 = id)) as [Hd|Hd].
    + rewrite <- Hd in *. rewrite apply_write_accepted by exact Hs.
      eexists. split; [reflexivity|].
      repeat split.
      * apply lookup_union_Some_l. apply adPayload_brandId.
      * apply lookup_union_Some_l. apply adPayload_fetchedAt.
      * apply lookup_union_Some_l. apply adPayload_source.
      * eexists. apply lookup_union_Some_l. apply adPayload_brandName.
    + rewrite apply_write_other.
      * apply IH. rewrite fmap_app in Hin. apply elem_of_app in Hin.
        destruct Hin as [Hin|Hin]; [exact Hin|].
        cbn in Hin. apply list_elem_of_singleton in Hin. congruence.
      * intros Heq. apply ads_key_inj in Heq. congruence.
Qed.

Lemma writes_of_app t1 t2 : writes_of (t1 ++ t2) = writes_of t1 ++ writes_of t2.
Proof. unfold writes_of. apply omap_app. Qed.

Lemma writes_of_verify t : forallb is_verify t = true -> writes_of t = [].
Proof.
  induction t as [|c t IH]; [reflexivity|].
  cbn. destruct c; cbn; try discriminate. exact IH.
Qed.

Lemma writes_of_write_calls docs :
  writes_of (map (write_call e) docs)
  = map (fun doc => (adDocId doc.1, adPayload e doc.1 doc.2)) docs.
Proof.
  induction docs as [|doc docs IH]; [reflexivity|].
  cbn. unfold writes_of in IH. rewrite IH. reflexivity.
Qed.

Lemma first_rejection_None docs :
  first_rejection (map (settles e) docs) = None <->
  forall id, id ∈ docs.*1 -> set_rejects e (adDocId id) = None.
Proof.
  induction docs as [|doc docs IH].
  - split; [|reflexivity]. intros _ id Hin. apply elem_of_nil in Hin. contradiction.
  - cbn [map first_rejection]. unfold settles at 1. rewrite fmap_cons.
    destruct (set_rejects e (adDocId doc.1)) as [m|] eqn:Hr.
    + split; [discriminate|]. intros H.
      rewrite (H doc.1) in Hr by apply list_elem_of_here. discriminate.
    + rewrite IH. split.
      * intros H id Hin. apply elem_of_cons in Hin. destruct Hin as [->|Hin]; auto.
      * intros H id Hin. apply H. apply list_elem_of_further. exact Hin.
Qed.

Lemma first_rejection_Some docs message :
  first_rejection (map (settles e) docs) = Some message ->
  exists id, id ∈ docs.*1 /\ set_rejects e (adDocId id) = Some message.
Proof.
  induction docs as [|doc docs IH]; [discriminate|].
  cbn [map first_rejection]. unfold settles at 1. rewrite fmap_cons.
  destruct (set_rejects e (adDocId doc.1)) as [m|] eqn:Hr.
  - intros [= <-]. exists doc.1. split; [apply list_elem_of_here | exact Hr].
  - intros H. destruct (IH H) as (id & Hin & Hid).
    exists id. split; [apply list_elem_of_further; exact Hin | exact Hid].
Qed.

Lemma error_response_status message :
  status (error_response message) = 401 \/ status (error_response message) = 500.
Proof.
  unfold error_response.
  destruct (String.eqb message "no-token" || String.eqb message "invalid-token");
    [left | right]; reflexivity.
Qed.

(** What a 200 answer tells about the run. *)
Lemma run_ok_inv h db r t db' :
  run e h db = (Return r, t, db') ->
  status r = 200 ->
  exists tok payload tv docs,
    bearer_match (default "" h) = Some tok /\
    verifyIdToken e tok db = (Return payload, tv, db) /\
    brands_get e = Return docs /\
    (forall id, id ∈ docs.*1 -> set_rejects e (adDocId id) = None) /\
    r = json 200 [("status", VStr "ok");
                  ("processed", VNum (Z.of_nat (length docs)))] /\
    t = tv ++ BrandsGet :: map (write_call e) docs /\
    db' = foldl (apply_write e) db docs.
Proof.
  rewrite run_eq. unfold run_result.
  destruct (bearer_match (default "" h)) as [tok|]; [|intros [= <- _ _]; discriminate].
  pose proof (verifyIdToken_db e tok db) as Hdb.
  destruct (verifyIdToken e tok db) as [[[p|msg] tv] db1] eqn:Hv; cbn in Hdb; subst db1.
  - destruct (brands_get e) as [docs|msg].
    + destruct (first_rejection (map (settles e) docs)) as [msg|] eqn:Hf.
      * intros [= <- _ _] Hs.
        destruct (error_response_status msg) as [H|H]; rewrite H in Hs; discriminate.
      * intros [= <- <- <-] _. exists tok, p, tv, docs.
        pose proof (proj1 (first_rejection_None docs) Hf) as Hall.
        repeat split; auto.
    + intros [= <- _ _] Hs.
      destruct (error_response_status msg) as [H|H]; rewrite H in Hs; discriminate.
  - intros [= <- _ _] Hs.
    destruct (error_response_status msg) as [H|H]; rewrite H in Hs; discriminate.
Qed.

(** Every run leaves the final database as the brands' writes applied to
    the initial one, or untouched. *)
Lemma run_db h db :
  (run e h db).2 = db \/
  exists docs, (run e h db).2 = foldl (apply_write e) db docs.
Proof.
  rewrite run_eq. unfold run_result.
  destruct (bearer_match (default "" h)) as [tok|]; [|left; reflexivity].
  destruct (verifyIdToken e tok db) as [[[p|msg] tv] db1]; [|left; reflexivity].
  destruct (brands_get e) as [docs|msg]; [|left; reflexivity].
  right. exists docs. reflexivity.
Qed.

End Writes.

Lemma error_response_body message :
  body (error_response message) = [("error", VStr message)].
Proof.
  unfold error_response.
  destruct (String.eqb message "no-token" || String.eqb message "invalid-token");
    reflexivity.
Qed.

(** ** Running twice *)

Section Rerun.

Variable e : env.

Lemma try_audiences_any_db tok auds db1 db2 :
  (try_audiences e tok auds db1).1 = (try_audiences e tok auds db2).1.
Proof.
  induction auds as [|a rest IH]; [reflexivity|].
  cbn [try_audiences]. unfold mbind, M_bind, bind, emit.
  destruct (oauth_verify e tok a); [reflexivity|].
  destruct (try_audiences e tok rest db1) as [[r1 t1] d1].
  destruct (try_audiences e tok rest db2) as [[r2 t2] d2].
  cbn in IH. injection IH as -> ->. reflexivity.
Qed.

Lemma verifyIdToken_any_db tok db1 db2 r t :
  verifyIdToken e tok db1 = (r, t, db1) -> verifyIdToken e tok db2 = (r, t, db2).
Proof.
  intros H. pose proof (verifyIdToken_db e tok db2) as Hdb.
  assert ((verifyIdToken e tok db1).1 = (verifyIdToken e tok db2).1) as Heq.
  { unfold verifyIdToken. destruct (String.eqb tok ""); [reflexivity|].
    apply try_audiences_any_db. }
  rewrite H in Heq. destruct (verifyIdToken e tok db2) as [[r2 t2] d2].
  cbn in Hdb, Heq. subst d2. injection Heq as <- <-. reflexivity.
Qed.

Lemma try_audiences_at_time instant tok auds db :
  try_audiences (at_time e instant) tok auds db = try_audiences e tok auds db.
Proof.
  induction auds as [|a rest IH]; [reflexivity|].
  cbn [try_audiences]. unfold mbind, M_bind, bind, emit. cbn [oauth_verify at_time].
  destruct (oauth_verify e tok a); [reflexivity|]. rewrite IH. reflexivity.
Qed.

Lemma verifyIdToken_at_time instant tok db :
  verifyIdToken (at_time e instant) tok db = verifyIdToken e tok db.
Proof.
  unfold verifyIdToken. destruct (String.eqb tok ""); [reflexivity|].
  apply try_audiences_at_time.
Qed.

Lemma writes_idempotent docs db :
  NoDup docs.*1 ->
  (forall id, id ∈ docs.*1 -> set_rejects e (adDocId id) = None) ->
  foldl (apply_write e) (foldl (apply_write e) db docs) docs
  = foldl (apply_write e) db docs.
Proof.
  intros Hnd Hall. apply map_eq. intros K.
  destruct (decide (K ∈ map (fun doc => ("ads", adDocId doc.1)) docs)) as [Hin|Hout].
  - apply list_elem_of_fmap in Hin. destruct Hin as ([bid brand] & -> & Hin).
    cbn [fst].
    assert (bid ∈ docs.*1) as Hid by (apply (list_elem_of_fmap_2 fst) in Hin; exact Hin).
    rewrite !(writes_accepted e docs _ bid brand) by auto.
    cbn [default from_option id].
    rewrite (assoc_L (∪)), (idemp_L (∪)). reflexivity.
  - assert (forall id, id ∈ docs.*1 -> K <> ("ads", adDocId id)) as HK.
    { intros bid Hid ->. apply Hout.
      apply list_elem_of_fmap in Hid. destruct Hid as (doc & -> & Hdoc).
      apply (list_elem_of_fmap_2 (fun doc => ("ads", adDocId doc.1))) in Hdoc.
      exact Hdoc. }
    rewrite !writes_other by exact HK. reflexivity.
Qed.

(** Writing to documents that exist creates none. *)
Lemma writes_dom docs db :
  (forall id, id ∈ docs.*1 -> ("ads", adDocId id) ∈ dom db) ->
  dom (foldl (apply_write e) db docs) = dom db.
Proof.
  revert db. induction docs as [|doc docs IH]; intros db Hin; [reflexivity|].
  cbn [foldl].
  assert (dom (apply_write e db doc) = dom db) as Hstep.
  { unfold apply_write, set_merge.
    destruct (set_rejects e (adDocId doc.1)); [reflexivity|].
    rewrite dom_insert_L.
    assert (("ads", adDocId doc.1) ∈ dom db) as H
      by (apply Hin; rewrite fmap_cons; apply list_elem_of_here).
    apply subseteq_union_1_L. apply singleton_subseteq_l. exact H. }
  rewrite IH; [exact Hstep|].
  intros id Hid. rewrite Hstep. apply Hin.
  rewrite fmap_cons. apply list_elem_of_further. exact Hid.
Qed.

End Rerun.

(** ** The pagination fetcher *)

Section Fetcher_properties.

Import Fetcher.

Variable fetchPage : fetchPage_t.
Variable pageId : string.
Variable cutoff : Z.

Lemma has_old_false pg :
  has_old cutoff pg = false -> List.filter (is_new cutoff) (ads pg) = ads pg.
Proof.
  unfold has_old. induction (ads pg) as [|ad l IH]; [reflexivity|].
  cbn. destruct (is_new cutoff ad); cbn; [|discriminate].
  intros H. rewrite IH by exact H. reflexivity.
Qed.

Lemma take_while_app {A} (p : A -> bool) l1 l2 :
  List.filter p l1 = l1 -> take_while p (l1 ++ l2) = l1 ++ take_while p l2.
Proof.
  induction l1 as [|x l1 IH]; [reflexivity|].
  cbn. destruct (p x) eqn:Hp.
  - intros [= H]. rewrite IH by exact H. reflexivity.
  - intros H. exfalso.
    assert (In x (List.filter p l1)) as Hin by (rewrite H; left; reflexivity).
    apply filter_In in Hin. destruct Hin as [_ Hin]. congruence.
Qed.

Lemma descending_filter l :
  descending l -> List.filter (is_new cutoff) l = take_while (is_new cutoff) l.
Proof.
  unfold descending. induction 1 as [|ad l Hs IH Hall]; [reflexivity|].
  cbn. destruct (is_new cutoff ad) eqn:Hn.
  - rewrite IH. reflexivity.
  - unfold is_new in Hn. apply Z.leb_gt in Hn.
    clear IH Hs. induction Hall as [|b l Hb Hall IH]; [reflexivity|].
    cbn. unfold is_new at 1.
    destruct (Z.leb_spec cutoff (createdTime b)); [lia | exact IH].
Qed.

Lemma descending_app_r l1 l2 : descending (l1 ++ l2) -> descending l2.
Proof.
  unfold descending. induction l1 as [|x l1 IH]; [auto|].
  cbn. intros H. apply StronglySorted_inv in H. apply IH. apply H.
Qed.

Lemma paginate_spec budget tok :
  let '(res, fetched) := paginate fetchPage pageId cutoff budget tok in
  (forall i pg, fetched !! i = Some pg -> has_old cutoff pg = true ->
     S i = length fetched) /\
  (forall gathered, res = inr gathered ->
     Forall (fun ad => cutoff <= createdTime ad) gathered /\
     gathered = List.filter (is_new cutoff) (concat (map ads fetched)) /\
     (descending (concat (map ads fetched)) ->
      gathered = take_while (is_new cutoff) (concat (map ads fetched)))).
Proof.
  revert tok. induction budget as [|budget IH]; intros tok; cbn [paginate].
  { split; [intros i pg [=]|]. intros g [= <-]. repeat split; constructor. }
  destruct (fetchPage pageId cutoff tok) as [err|pg].
  { split; [intros i pg [=]|]. intros g [=]. }
  assert (Forall (fun ad => cutoff <= createdTime ad)
                 (List.filter (is_new cutoff) (ads pg))) as Hfresh.
  { apply Forall_forall. intros ad Hin. apply list_elem_of_In, filter_In in Hin.
    destruct Hin as [_ Hn]. unfold is_new in Hn. lia. }
  assert (forall i p, [pg] !! i = Some p -> S i = length [pg]) as Hone.
  { intros [|i] p; [reflexivity | intros [=]]. }
  assert (forall g, (inr (List.filter (is_new cutoff) (ads pg)) : api_error + _) = inr g ->
            Forall (fun ad => cutoff <= createdTime ad) g /\
            g = List.filter (is_new cutoff) (concat (map ads [pg])) /\
            (descending (concat (map ads [pg])) ->
             g = take_while (is_new cutoff) (concat (map ads [pg])))) as Hlast.
  { intros g [= <-]. cbn. rewrite app_nil_r.
    split; [exact Hfresh|]. split; [reflexivity|]. apply descending_filter. }
  destruct (has_old cutoff pg) eqn:Hold; [split; [eauto | exact Hlast]|].
  destruct (nextPageToken pg) as [next|]; [|split; [eauto | exact Hlast]].
  specialize (IH (Some next)).
  destruct (paginate fetchPage pageId cutoff budget (Some next)) as [[err|rest] fetched];
    destruct IH as [Hhalt Hres].
  - split; [|intros g [=]].
    intros [|i] p; cbn.
    + intros [= <-]. congruence.
    + intros Hp Ho. f_equal. exact (Hhalt i p Hp Ho).
  - split.
    + intros [|i] p; cbn.
      * intros [= <-]. congruence.
      * intros Hp Ho. f_equal. exact (Hhalt i p Hp Ho).
    + intros g [= <-]. destruct (Hres rest eq_refl) as (Hall & Heq & Hsorted).
      cbn [map concat]. split; [|split].
      * apply Forall_app. split; assumption.
      * rewrite List.filter_app, <- Heq. reflexivity.
      * intros Hd. rewrite take_while_app by (apply has_old_false; exact Hold).
        rewrite (has_old_false pg Hold). f_equal.
        apply Hsorted. eapply descending_app_r. exact Hd.
Qed.

Lemma paginate_total budget tok :
  (forall since token, exists pg, fetchPage pageId since token = inr pg) ->
  exists gathered, (paginate fetchPage pageId cutoff budget tok).1 = inr gathered.
Proof.
  intros Hapi. revert tok. induction budget as [|budget IH]; intros tok; cbn [paginate].
  { eexists. reflexivity. }
  destruct (Hapi cutoff tok) as [pg ->].
  destruct (has_old cutoff pg); [eexists; reflexivity|].
  destruct (nextPageToken pg) as [next|]; [|eexists; reflexivity].
  destruct (IH (Some next)) as [rest Hrest].
  destruct (paginate fetchPage pageId cutoff budget (Some next)) as [[err|r] fetched];
    cbn in Hrest; [discriminate|].
  eexists. reflexivity.
Qed.

End Fetcher_properties.

(** ** More on the gate and on the writes *)

Section Gate_trace.

Variable e : env.

Lemma try_audiences_first tok auds db p t db' :
  try_audiences e tok auds db = (Return p, t, db') ->
  exists pre aud post,
    auds = pre ++ aud :: post /\
    (forall a, a ∈ pre -> oauth_verify e tok a = None) /\
    oauth_verify e tok aud = Some p /\
    t = map (VerifyIdToken tok) (pre ++ [aud]).
Proof.
  revert t. induction auds as [|a rest IH]; intros t; [discriminate|].
  cbn [try_audiences]. unfold mbind, M_bind, bind, emit.
  destruct (oauth_verify e tok a) as [q|] eqn:Ha.
  - intros [= <- <- _]. exists [], a, rest.
    split; [reflexivity|]. split; [|split; [exact Ha | reflexivity]].
    intros x Hx. apply elem_of_nil in Hx. contradiction.
  - destruct (try_audiences e tok rest db) as [[r1 t1] d1] eqn:Hr.
    intros [= -> <- <-].
    destruct (IH t1 eq_refl) as (pre & aud & post & -> & Hpre & Haud & ->).
    exists (a :: pre), aud, post.
    split; [reflexivity|]. split; [|split; [exact Haud | reflexivity]].
    intros x Hx. apply elem_of_cons in Hx. destruct Hx as [->|Hx]; auto.
Qed.

Lemma try_audiences_trace tok auds db c :
  c ∈ (try_audiences e tok auds db).1.2 ->
  exists aud, c = VerifyIdToken tok aud /\ aud ∈ auds.
Proof.
  induction auds as [|a rest IH].
  - cbn. intros H. apply elem_of_nil in H. contradiction.
  - cbn [try_audiences]. unfold mbind, M_bind, bind, emit.
    destruct (oauth_verify e tok a).
    + cbn. intros H. apply list_elem_of_singleton in H. subst c.
      exists a. split; [reflexivity | apply list_elem_of_here].
    + destruct (try_audiences e tok rest db) as [[r1 t1] d1]. cbn in *.
      intros H. apply elem_of_cons in H. destruct H as [->|H].
      * exists a. split; [reflexivity | apply list_elem_of_here].
      * destruct (IH H) as (aud & -> & Hin).
        exists aud. split; [reflexivity | apply list_elem_of_further; exact Hin].
Qed.

Lemma verifyIdToken_trace tok db c :
  c ∈ (verifyIdToken e tok db).1.2 ->
  exists aud, c = VerifyIdToken tok aud /\ aud ∈ EXPECT_AUDIENCES e.
Proof.
  unfold verifyIdToken. destruct (String.eqb tok "").
  - cbn. intros H. apply elem_of_nil in H. contradiction.
  - apply try_audiences_trace.
Qed.

Lemma verify_only_no_store t c :
  forallb is_verify t = true -> c ∈ t -> is_verify c = true.
Proof.
  intros Hall Hin. rewrite forallb_forall in Hall.
  apply Hall. apply list_elem_of_In. exact Hin.
Qed.

Lemma write_calls_are_sets docs : forallb is_set (map (write_call e) docs) = true.
Proof. induction docs as [|doc docs IH]; [reflexivity | exact IH]. Qed.

(** A rejected write leaves its document as it was. *)
Lemma writes_rejected docs db id message :
  set_rejects e (adDocId id) = Some message ->
  foldl (apply_write e) db docs !! ("ads", adDocId id) = db !! ("ads", adDocId id).
Proof.
  intros Hrej. revert db. induction docs as [|doc docs IH]; intros db; [reflexivity|].
  cbn [foldl]. rewrite IH.
  destruct (decide (doc.1 = id)) as [<-|Hne].
  - unfold apply_write. rewrite Hrej. reflexivity.
  - apply apply_write_other. intros Heq. apply ads_key_inj in Heq. congruence.
Qed.

(** The writes never remove a document or a field. *)
Lemma writes_keep docs db K d :
  db !! K = Some d ->
  exists d', foldl (apply_write e) db docs !! K = Some d' /\ dom d ⊆ dom d'.
Proof.
  revert db d. induction docs as [|doc docs IH]; intros db d Hd.
  - exists d. split; [exact Hd | reflexivity].
  - cbn [foldl].
    assert (exists d1, apply_write e db doc !! K = Some d1 /\ dom d ⊆ dom d1)
      as (d1 & Hd1 & Hsub).
    { destruct (decide (K = ("ads", adDocId doc.1))) as [->|HK].
      - unfold apply_write, set_merge.
        destruct (set_rejects e (adDocId doc.1)).
        + exists d. split; [exact Hd | reflexivity].
        + rewrite lookup_insert_eq, Hd. cbn [default from_option].
          eexists. split; [reflexivity|]. rewrite dom_union_L.
          apply union_subseteq_r.
      - rewrite apply_write_other by exact HK.
        exists d. split; [exact Hd | reflexivity]. }
    destruct (IH _ _ Hd1) as (d' & Hd' & Hsub').
    exists d'. split; [exact Hd'|]. etrans; eassumption.
Qed.

(** With distinct ids, the final database does not depend on the order of
    the brand list. *)
Lemma writes_lookup docs db K :
  NoDup docs.*1 ->
  (exists id brand, (id, brand) ∈ docs /\ K = ("ads", adDocId id) /\
     foldl (apply_write e) db docs !! K
     = match set_rejects e (adDocId id) with
       | None => Some (adPayload e id brand ∪ default ∅ (db !! K))
       | Some _ => db !! K
       end) \/
  ((forall id, id ∈ docs.*1 -> K <> ("ads", adDocId id)) /\
   foldl (apply_write e) db docs !! K = db !! K).
Proof.
  intros Hnd.
  destruct (decide (K ∈ map (fun doc => ("ads", adDocId doc.1)) docs)) as [Hin|Hout].
  - left. apply list_elem_of_fmap in Hin. destruct Hin as ([bid brand] & -> & Hin).
    cbn [fst]. exists bid, brand. split; [exact Hin|]. split; [reflexivity|].
    destruct (set_rejects e (adDocId bid)) as [m|] eqn:Hr.
    + apply (writes_rejected docs db bid m Hr).
    + apply writes_accepted; assumption.
  - right.
    assert (forall bid, bid ∈ docs.*1 -> K <> ("ads", adDocId bid)) as HK.
    { intros bid Hid ->. apply Hout.
      apply list_elem_of_fmap in Hid. destruct Hid as (doc & -> & Hdoc).
      apply (list_elem_of_fmap_2 (fun doc => ("ads", adDocId doc.1))) in Hdoc.
      exact Hdoc. }
    split; [exact HK | apply writes_other; exact HK].
Qed.

Lemma writes_permutation docs docs' db :
  NoDup docs.*1 -> docs ≡ₚ docs' ->
  foldl (apply_write e) db docs = foldl (apply_write e) db docs'.
Proof.
  intros Hnd Hperm.
  assert (NoDup docs'.*1) as Hnd' by (rewrite <- Hperm; exact Hnd).
  apply map_eq. intros K.
  destruct (writes_lookup docs db K Hnd)
    as [(bid & brand & Hin & -> & ->)|(HK & ->)].
  - rewrite Hperm in Hin.
    destruct (set_rejects e (adDocId bid)) as [m|] eqn:Hr.
    + symmetry. apply (writes_rejected docs' db bid m Hr).
    + symmetry. apply writes_accepted; assumption.
  - symmetry. apply writes_other. intros bid Hid. apply HK.
    rewrite Hperm. exact Hid.
Qed.

End Gate_trace.

Lemma try_audiences_with_brands e docs tok auds db :
  try_audiences (with_brands e docs) tok auds db = try_audiences e tok auds db.
Proof.
  induction auds as [|a rest IH]; [reflexivity|].
  cbn [try_audiences]. unfold mbind, M_bind, bind, emit. cbn [oauth_verify with_brands].
  destruct (oauth_verify e tok a); [reflexivity|]. rewrite IH. reflexivity.
Qed.

Lemma verifyIdToken_with_brands e docs tok db :
  verifyIdToken (with_brands e docs) tok db = verifyIdToken e tok db.
Proof.
  unfold verifyIdToken. destruct (String.eqb tok ""); [reflexivity|].
  apply try_audiences_with_brands.
Qed.

Lemma verifyIdToken_accepting e tok payload t db db' :
  verifyIdToken e tok db = (Return payload, t, db') ->
  exists aud, aud ∈ EXPECT_AUDIENCES e /\ oauth_verify e tok aud = Some payload.
Proof.
  unfold verifyIdToken. destruct (String.eqb tok ""); [discriminate|].
  intros Hv. destruct (try_audiences_first e tok _ db payload t db' Hv)
    as (pre & aud & post & Hauds & _ & Hok & _).
  exists aud. split; [|exact Hok].
  rewrite Hauds. apply elem_of_app. right. apply list_elem_of_here.
Qed.






(** * The claims *)

Import Samples.

(** C1, as the code has it.  With a verified token and a loaded brand
    list, the write of every brand is issued and every accepted write is
    applied, but there is no per-brand catch: the answer is
    [{status:"ok", processed:n}] only if every write was accepted, and as
    soon as one is rejected the single [catch] of the handler answers 401 or
    500 with [{error: message}] of a rejected write. *)
Theorem run_all_or_error (e : env) (h : option string) (tok : string)
    (db : database) (docs : list (string * document)) :
  bearer_match (default "" h) = Some tok ->
  (exists aud, aud ∈ EXPECT_AUDIENCES e /\ is_Some (oauth_verify e tok aud)) ->
  brands_get e = Return docs ->
  exists r t db',
    run e h db = (Return r, t, db') /\
    writes_of t = map (fun doc => (adDocId doc.1, adPayload e doc.1 doc.2)) docs /\
    (forall id, id ∈ docs.*1 -> set_rejects e (adDocId id) = None ->
       exists d, db' !! ("ads", adDocId id) = Some d /\
                 d !! "fetchedAt" = Some (VStr (now e))) /\
    ((forall id, id ∈ docs.*1 -> set_rejects e (adDocId id) = None) ->
     r = json 200 [("status", VStr "ok");
                   ("processed", VNum (Z.of_nat (length docs)))]) /\
    (forall id, id ∈ docs.*1 -> set_rejects e (adDocId id) <> None ->
       exists id' message,
         id' ∈ docs.*1 /\ set_rejects e (adDocId id') = Some message /\
         on_error message db' = (Return r, [], db') /\
         (status r = 401 \/ status r = 500) /\
         body r = [("error", VStr message)]).
Proof.
  intros Hm Hex Hb.
  assert (tok <> "") as Hne by (eapply bearer_match_nonempty; exact Hm).
  apply eqb_empty_false in Hne.
  destruct (try_audiences_accept e tok (EXPECT_AUDIENCES e) db Hex) as (p & tv & Hv).
  assert (verifyIdToken e tok db = (Return p, tv, db)) as Hv'
    by (unfold verifyIdToken; rewrite Hne; exact Hv).
  pose proof (run_eq e h db) as Hrun. unfold run_result in Hrun.
  rewrite Hm, Hv', Hb in Hrun.
  eexists _, _, _. split; [exact Hrun|]. split; [|split; [|split]].
  - rewrite writes_of_app. rewrite writes_of_verify.
    + change (BrandsGet :: map (write_call e) docs)
        with ([BrandsGet] ++ map (write_call e) docs).
      rewrite writes_of_app. apply writes_of_write_calls.
    + pose proof (verifyIdToken_calls e tok db) as Hc. rewrite Hv' in Hc. exact Hc.
  - intros id Hin Hs.
    destruct (writes_present e docs db id Hin Hs) as (d & Hd & _ & H2 & _).
    exists d. split; assumption.
  - intros Hall. apply first_rejection_None in Hall. rewrite Hall. reflexivity.
  - intros id Hin Hrej.
    destruct (first_rejection (map (settles e) docs)) as [msg|] eqn:Hf.
    + destruct (first_rejection_Some e docs msg Hf) as (id' & Hin' & Hid').
      exists id', msg. split; [exact Hin'|]. split; [exact Hid'|].
      split; [apply on_error_eq|].
      split; [apply error_response_status | apply error_response_body].
    + exfalso. apply Hrej.
      exact (proj1 (first_rejection_None e docs) Hf id Hin).
Qed.

Lemma run_all_or_error_witness :
  bearer_match (default "" hdr) = Some "good" /\
  brands_get b_fails = Return [("a", brand_a); ("b", brand_b)] /\
  exists r t db',
    run b_fails hdr db0 = (Return r, t, db') /\
    (status r = 401 \/ status r = 500) /\
    exists d, db' !! ("ads", adDocId "a") = Some d /\
              d !! "fetchedAt" = Some (VStr (now b_fails)).
Proof.
  split; [reflexivity|]. split; [reflexivity|].
  destruct (run_all_or_error b_fails hdr "good" db0
              [("a", brand_a); ("b", brand_b)] eq_refl)
    as (r & t & db' & Hrun & _ & Hkept & _ & Hfail).
  - exists SERVICE_URL. split; [apply list_elem_of_here | vm_compute; eauto].
  - reflexivity.
  - exists r, t, db'. split; [exact Hrun|]. split.
    + destruct (Hfail "b") as (id' & msg & _ & _ & _ & Hst & _).
      * apply list_elem_of_further, list_elem_of_here.
      * discriminate.
      * exact Hst.
    + apply (Hkept "a"); [apply list_elem_of_here | reflexivity].
Defined.

(** C1 fails on the code: the token verifies, the brands load, the write of
    brand [a] is accepted and only that of brand [b] is rejected, and the
    whole call answers 500. *)
Lemma one_rejected_write_fails_the_batch :
  is_Some (oauth_verify b_fails "good" SERVICE_URL) /\
  brands_get b_fails = Return [("a", brand_a); ("b", brand_b)] /\
  set_rejects b_fails (adDocId "a") = None /\
  set_rejects b_fails (adDocId "b") = Some "14 UNAVAILABLE" /\
  (run b_fails hdr db0).1.1
  = Return (json 500 [("error", VStr "14 UNAVAILABLE")]).
Proof. repeat split; vm_compute; eauto. Qed.

(** C2, as the code has it.  No run writes a brand document: a brand's
    [lastFetchedAt] is after the run what it was before, whether the run
    succeeded or failed.  What a successful run sets to the run-start time
    is the [fetchedAt] field of the brand's [ads] document. *)
Theorem watermark_untouched (e : env) (h : option string) (db : database) :
  (forall id, (run e h db).2 !! ("brands", id) = db !! ("brands", id)) /\
  (forall id, lastFetchedAt (run e h db).2 id = lastFetchedAt db id) /\
  (forall r t db' docs,
     run e h db = (Return r, t, db') -> status r = 200 ->
     brands_get e = Return docs ->
     forall id, id ∈ docs.*1 ->
       exists d, db' !! ("ads", adDocId id) = Some d /\
                 d !! "fetchedAt" = Some (VStr (now e))).
Proof.
  assert (forall id, (run e h db).2 !! ("brands", id) = db !! ("brands", id)) as Hb.
  { intros id. destruct (run_db e h db) as [->|(docs & ->)]; [reflexivity|].
    apply writes_other_collection. discriminate. }
  split; [exact Hb|]. split.
  - intros id. unfold lastFetchedAt. rewrite Hb. reflexivity.
  - intros r t db' docs Hrun Hok Hdocs id Hin.
    destruct (run_ok_inv e h db r t db' Hrun Hok)
      as (tok & p & tv & docs' & _ & _ & Hb' & Hall & _ & _ & ->).
    rewrite Hdocs in Hb'. injection Hb' as <-.
    destruct (writes_present e docs db id Hin (Hall id Hin))
      as (d & Hd & _ & H2 & _).
    exists d. split; assumption.
Qed.

Lemma watermark_untouched_witness :
  run healthy hdr db0
  = (Return (json 200 [("status", VStr "ok"); ("processed", VNum 2)]),
     (run healthy hdr db0).1.2, (run healthy hdr db0).2) /\
  lastFetchedAt (run healthy hdr db0).2 "a" = lastFetchedAt db0 "a" /\
  exists d, (run healthy hdr db0).2 !! ("ads", adDocId "a") = Some d /\
            d !! "fetchedAt" = Some (VStr (now healthy)).
Proof.
  assert (run healthy hdr db0
          = (Return (json 200 [("status", VStr "ok"); ("processed", VNum 2)]),
             (run healthy hdr db0).1.2, (run healthy hdr db0).2)) as Hrun
    by (vm_compute; reflexivity).
  destruct (watermark_untouched healthy hdr db0) as (_ & Hmark & Hfetched).
  split; [exact Hrun|]. split; [apply Hmark|].
  apply (Hfetched _ _ _ _ Hrun eq_refl eq_refl). apply list_elem_of_here.
Defined.

(** C2 fails on the code: the run succeeds for brand [a], yet its
    [lastFetchedAt] is still the old instant, not the run-start time. *)
Lemma watermark_stays_after_success :
  (run healthy hdr db0).1.1
  = Return (json 200 [("status", VStr "ok"); ("processed", VNum 2)]) /\
  lastFetchedAt db0 "a" = Some (VStr "2025-01-01T00:00:00.000Z") /\
  lastFetchedAt (run healthy hdr db0).2 "a" = Some (VStr "2025-01-01T00:00:00.000Z") /\
  lastFetchedAt (run healthy hdr db0).2 "a" <> Some (VStr (now healthy)).
Proof. repeat split; try (vm_compute; reflexivity). vm_compute. discriminate. Qed.

(** C3, as the code has it.  The key of a brand's write is ["ad_" +
    brandId], a function of the brand id alone.  After a run answered 200, a
    second run issues the same writes and answers the same
    [{status:"ok", processed:n}]: it reports nothing as skipped.  At the same
    instant it leaves the database as the first run left it; at any other
    instant it still creates no document.  Brand ids are distinct, as the
    ids of the documents of one collection are. *)
Theorem rerun_idempotent (e : env) (h : option string) (db db' : database)
    (r : response) (t : list call) (docs : list (string * document)) :
  brands_get e = Return docs ->
  NoDup docs.*1 ->
  run e h db = (Return r, t, db') ->
  status r = 200 ->
  (writes_of t).*1 = map (fun brandId => "ad_" +:+ brandId) docs.*1 /\
  run e h db' = (Return r, t, db') /\
  forall instant, exists t2 db2,
    run (at_time e instant) h db' = (Return r, t2, db2) /\
    (writes_of t2).*1 = (writes_of t).*1 /\
    dom db2 = dom db'.
Proof.
  intros Hb Hnd Hrun Hok.
  destruct (run_ok_inv e h db r t db' Hrun Hok)
    as (tok & p & tv & docs' & Hm & Hv & Hb' & Hall & -> & -> & ->).
  rewrite Hb in Hb'. injection Hb' as <-.
  pose proof (verifyIdToken_calls e tok db) as Hc. rewrite Hv in Hc. cbn in Hc.
  assert (forall e0 : env,
            (writes_of (tv ++ BrandsGet :: map (write_call e0) docs)).*1
            = map adDocId docs.*1) as Hkeys.
  { intros e0. rewrite writes_of_app, (writes_of_verify tv Hc).
    change (BrandsGet :: map (write_call e0) docs)
      with ([BrandsGet] ++ map (write_call e0) docs).
    rewrite writes_of_app, writes_of_write_calls. cbn.
    clear. induction docs as [|doc docs IH]; [reflexivity|].
    cbn. f_equal. exact IH. }
  split; [apply Hkeys|]. split.
  - rewrite run_eq. unfold run_result. rewrite Hm.
    rewrite (verifyIdToken_any_db e tok db _ _ _ Hv), Hb.
    rewrite (proj2 (first_rejection_None e docs) Hall).
    rewrite writes_idempotent by assumption. reflexivity.
  - intros instant.
    pose proof (run_eq (at_time e instant) h (foldl (apply_write e) db docs)) as H2.
    unfold run_result in H2. rewrite Hm, verifyIdToken_at_time in H2.
    rewrite (verifyIdToken_any_db e tok db _ _ _ Hv) in H2.
    cbn [brands_get at_time] in H2. rewrite Hb in H2.
    rewrite (proj2 (first_rejection_None (at_time e instant) docs) Hall) in H2.
    eexists _, _. split; [exact H2|]. split.
    + rewrite !Hkeys. reflexivity.
    + apply writes_dom. intros id Hin.
      destruct (writes_present e docs db id Hin (Hall id Hin)) as (d & Hd & _).
      apply elem_of_dom. exists d. exact Hd.
Qed.

Lemma rerun_idempotent_witness :
  NoDup [("a", brand_a); ("b", brand_b)].*1 /\
  run healthy hdr (run healthy hdr db0).2
  = (Return (json 200 [("status", VStr "ok"); ("processed", VNum 2)]),
     (run healthy hdr db0).1.2, (run healthy hdr db0).2) /\
  (writes_of (run healthy hdr db0).1.2).*1 = ["ad_a"; "ad_b"].
Proof.
  assert (run healthy hdr db0
          = (Return (json 200 [("status", VStr "ok"); ("processed", VNum 2)]),
             (run healthy hdr db0).1.2, (run healthy hdr db0).2)) as Hrun
    by (vm_compute; reflexivity).
  assert (NoDup [("a", brand_a); ("b", brand_b)].*1) as Hnd.
  { cbn. apply NoDup_cons. split.
    - intros H. apply list_elem_of_singleton in H. discriminate.
    - apply NoDup_singleton. }
  destruct (rerun_idempotent healthy hdr db0 _ _ _ _ eq_refl Hnd Hrun eq_refl)
    as (Hkeys & Hagain & _).
  split; [exact Hnd|]. split; [exact Hagain | exact Hkeys].
Defined.

(** C3 fails on the code: the second run over the same brands reports them
    as processed again, exactly as the first did; its answer has no field
    that counts skipped items. *)
Lemma second_run_reports_processed :
  (run healthy hdr db0).1.1
  = Return (json 200 [("status", VStr "ok"); ("processed", VNum 2)]) /\
  (run healthy hdr (run healthy hdr db0).2).1.1
  = Return (json 200 [("status", VStr "ok"); ("processed", VNum 2)]) /\
  "tasksSkipped" ∉ (body (json 200 [("status", VStr "ok"); ("processed", VNum 2)])).*1.
Proof.
  split; [vm_compute; reflexivity|]. split; [vm_compute; reflexivity|].
  cbn. rewrite !not_elem_of_cons. repeat split; try discriminate.
  apply not_elem_of_nil.
Qed.

(** C4. The auth gate fails closed.  For a bearer token (the non-empty
    capture of the header): it verifies as soon as one configured audience
    accepts it; when the audience list is empty, or every configured
    audience rejects it, [verifyIdToken] throws [invalid-token] and [/run]
    answers 401 [{"error":"invalid-token"}] without touching the store. *)
Theorem auth_gate_fails_closed (e : env) (token : string) (db : database) :
  token <> "" ->
  ((exists aud, aud ∈ EXPECT_AUDIENCES e /\ is_Some (oauth_verify e token aud)) ->
   exists payload t, verifyIdToken e token db = (Return payload, t, db)) /\
  ((EXPECT_AUDIENCES e = [] \/
    forall aud, aud ∈ EXPECT_AUDIENCES e -> oauth_verify e token aud = None) ->
   verifyIdToken e token db
   = (Throw "invalid-token", map (VerifyIdToken token) (EXPECT_AUDIENCES e), db) /\
   forall h, bearer_match h = Some token ->
     run e (Some h) db
     = (Return (json 401 [("error", VStr "invalid-token")]),
        map (VerifyIdToken token) (EXPECT_AUDIENCES e), db)).
Proof.
  intros Hne. pose proof Hne as Hne'. apply eqb_empty_false in Hne'.
  split.
  - intros Hex. unfold verifyIdToken. rewrite Hne'.
    apply try_audiences_accept. exact Hex.
  - intros Hrej.
    assert (forall aud, aud ∈ EXPECT_AUDIENCES e -> oauth_verify e token aud = None)
      as Hall.
    { destruct Hrej as [Hnil|Hall]; [|exact Hall].
      intros aud Hin. rewrite Hnil in Hin. apply elem_of_nil in Hin. contradiction. }
    assert (verifyIdToken e token db
            = (Throw "invalid-token",
               map (VerifyIdToken token) (EXPECT_AUDIENCES e), db)) as Hv.
    { unfold verifyIdToken. rewrite Hne'. apply try_audiences_reject. exact Hall. }
    split; [exact Hv|].
    intros h Hm. rewrite run_eq. unfold run_result. change (default "" (Some h)) with h.
    rewrite Hm, Hv. reflexivity.
Qed.

Lemma auth_gate_fails_closed_witness :
  "bad" <> "" /\
  verifyIdToken healthy "bad" db0
  = (Throw "invalid-token", [VerifyIdToken "bad" SERVICE_URL], db0) /\
  run healthy (Some "Bearer bad") db0
  = (Return (json 401 [("error", VStr "invalid-token")]),
     [VerifyIdToken "bad" SERVICE_URL], db0) /\
  exists payload t, verifyIdToken healthy "good" db0 = (Return payload, t, db0).
Proof.
  split; [discriminate|].
  assert (forall aud, aud ∈ EXPECT_AUDIENCES healthy ->
            oauth_verify healthy "bad" aud = None) as Hrej
    by (intros aud _; reflexivity).
  destruct (auth_gate_fails_closed healthy "bad" db0 ltac:(discriminate))
    as [_ Hclosed].
  destruct (Hclosed (or_intror Hrej)) as [Hv Hrun].
  split; [exact Hv|]. split; [apply Hrun; reflexivity|].
  apply (auth_gate_fails_closed healthy "good" db0); [discriminate|].
  exists SERVICE_URL. split; [apply list_elem_of_here | vm_compute; eauto].
Defined.

(** C5. Without an [Authorization] header the answer is 401
    [{"error":"missing-token"}] and no call at all is issued: no token
    verification, no read of the brands, no write. *)
Theorem run_without_authorization (e : env) (db : database) :
  run e None db
  = (Return (json 401 [("error", VStr "missing-token")]), [], db).
Proof. reflexivity. Qed.




(** C7.  The pagination fetcher, for every brand page and cutoff: its output
    holds no ad created strictly before the cutoff; the page on which an
    older ad shows up is the last page it fetches, whether or not that page
    names a next one; and when the API delivers the ads most recent first,
    the output is exactly the ads that precede the first older one.  It
    returns such an output whenever the API answers. *)
Theorem fetcher_respects_cutoff (fetchPage : Fetcher.fetchPage_t)
    (pageId : string) (cutoff : Z) :
  let '(res, fetched) := Fetcher.fetchNewAds fetchPage pageId cutoff in
  (forall gathered, res = inr gathered ->
     Forall (fun ad => cutoff <= Fetcher.createdTime ad) gathered) /\
  (forall i pg, fetched !! i = Some pg -> Fetcher.has_old cutoff pg = true ->
     S i = length fetched) /\
  (forall gathered, res = inr gathered ->
     Fetcher.descending (concat (map Fetcher.ads fetched)) ->
     gathered = Fetcher.take_while (Fetcher.is_new cutoff)
                  (concat (map Fetcher.ads fetched))) /\
  ((forall since token, exists pg, fetchPage pageId since token = inr pg) ->
   exists gathered, res = inr gathered).
Proof.
  unfold Fetcher.fetchNewAds.
  pose proof (paginate_spec fetchPage pageId cutoff Fetcher.MAX_PAGES None) as Hspec.
  pose proof (paginate_total fetchPage pageId cutoff Fetcher.MAX_PAGES None) as Htot.
  destruct (Fetcher.paginate fetchPage pageId cutoff Fetcher.MAX_PAGES None)
    as [res fetched].
  destruct Hspec as [Hhalt Hres]. split; [|split; [|split]].
  - intros g Hg. apply (Hres g Hg).
  - exact Hhalt.
  - intros g Hg. apply (Hres g Hg).
  - exact Htot.
Qed.

Lemma fetcher_respects_cutoff_witness :
  Fetcher.fetchNewAds Fetcher.scenario_api "444" Fetcher.T0
  = (inr [Fetcher.mk_ad "x" (Fetcher.T0 + 5); Fetcher.mk_ad "y" (Fetcher.T0 + 3)],
     [ {| Fetcher.ads := [Fetcher.mk_ad "x" (Fetcher.T0 + 5);
                          Fetcher.mk_ad "y" (Fetcher.T0 + 3)];
          Fetcher.nextPageToken := Some "p2" |};
       {| Fetcher.ads := [Fetcher.mk_ad "z" (Fetcher.T0 - 1)];
          Fetcher.nextPageToken := Some "p3" |} ]) /\
  Forall (fun ad => Fetcher.T0 <= Fetcher.createdTime ad)
         [Fetcher.mk_ad "x" (Fetcher.T0 + 5); Fetcher.mk_ad "y" (Fetcher.T0 + 3)] /\
  2%nat = length (Fetcher.fetchNewAds Fetcher.scenario_api "444" Fetcher.T0).2.
Proof.
  pose proof (fetcher_respects_cutoff Fetcher.scenario_api "444" Fetcher.T0) as H.
  assert (Fetcher.fetchNewAds Fetcher.scenario_api "444" Fetcher.T0
          = (inr [Fetcher.mk_ad "x" (Fetcher.T0 + 5);
                  Fetcher.mk_ad "y" (Fetcher.T0 + 3)],
             [ {| Fetcher.ads := [Fetcher.mk_ad "x" (Fetcher.T0 + 5);
                                  Fetcher.mk_ad "y" (Fetcher.T0 + 3)];
                  Fetcher.nextPageToken := Some "p2" |};
               {| Fetcher.ads := [Fetcher.mk_ad "z" (Fetcher.T0 - 1)];
                  Fetcher.nextPageToken := Some "p3" |} ])) as Hrun
    by (vm_compute; reflexivity).
  rewrite Hrun in H |- *. destruct H as (Hnew & Hhalt & _ & _).
  split; [reflexivity|]. split.
  - apply Hnew. reflexivity.
  - apply (Hhalt 1%nat _ eq_refl). reflexivity.
Defined.

(** C8. A header that is not ["Bearer "] followed by at least one character
    is handled exactly as an absent header: 401 [{"error":"missing-token"}],
    no verification and no other call. *)
Theorem run_malformed_authorization (e : env) (db : database) (h : string) :
  (forall tok, tok <> "" -> h <> "Bearer " +:+ tok) ->
  run e (Some h) db = run e None db /\
  run e (Some h) db
  = (Return (json 401 [("error", VStr "missing-token")]), [], db).
Proof.
  intros Hno. apply bearer_match_None in Hno.
  assert (run e (Some h) db
          = (Return (json 401 [("error", VStr "missing-token")]), [], db)) as H.
  { rewrite run_eq. unfold run_result. change (default "" (Some h)) with h. rewrite Hno. reflexivity. }
  split; [rewrite H; reflexivity | exact H].
Qed.

Lemma run_malformed_authorization_witness :
  run healthy (Some "bearer good") db0
  = (Return (json 401 [("error", VStr "missing-token")]), [], db0) /\
  run healthy (Some "Bearer") db0
  = (Return (json 401 [("error", VStr "missing-token")]), [], db0) /\
  run healthy (Some "Bearer ") db0
  = (Return (json 401 [("error", VStr "missing-token")]), [], db0) /\
  run healthy (Some "Basic dXNlcjpwYXNz") db0
  = (Return (json 401 [("error", VStr "missing-token")]), [], db0).
Proof.
  assert (forall h, (forall tok, tok <> "" -> h <> "Bearer " +:+ tok) ->
            run healthy (Some h) db0
            = (Return (json 401 [("error", VStr "missing-token")]), [], db0)) as Hmissing
    by (intros h Hh; exact (proj2 (run_malformed_authorization healthy db0 h Hh))).
  split; [|split; [|split]]; apply Hmissing; intros tok Hne Heq;
    apply (proj2 (strip_prefix_Some _ _ _)) in Heq; cbn in Heq; congruence.
Defined.

(** C9, as the code has it.  The [no-token] branch of [verifyIdToken]
    cannot be reached through [/run]: the handler passes it the capture of
    the bearer expression, which is never empty, so the gate throws
    [invalid-token] or nothing.  Hence, as long as the store does not itself
    reject with an error named [no-token], a 401 answer carries
    [missing-token] or [invalid-token]. *)
Theorem no_token_unreachable (e : env) (h : option string) (db : database) :
  (forall tok, bearer_match (default "" h) = Some tok ->
     tok <> "" /\ (verifyIdToken e tok db).1.1 <> Throw "no-token") /\
  (brands_get e <> Throw "no-token" ->
   (forall k, set_rejects e k <> Some "no-token") ->
   forall r t db', run e h db = (Return r, t, db') ->
     status r = 401 ->
     body r = [("error", VStr "missing-token")] \/
     body r = [("error", VStr "invalid-token")]).
Proof.
  split.
  - intros tok Hm. pose proof (bearer_match_nonempty _ _ Hm) as Hne.
    split; [exact Hne|].
    destruct (verifyIdToken e tok db) as [[[p|msg] t] db1] eqn:Hv; cbn.
    + discriminate.
    + apply verifyIdToken_throws in Hv; [|exact Hne]. subst msg. discriminate.
  - intros Hbrands Hsets r t db'. rewrite run_eq. unfold run_result.
    destruct (bearer_match (default "" h)) as [tok|] eqn:Hm.
    2:{ intros [= <- _ _] _. left. reflexivity. }
    pose proof (bearer_match_nonempty _ _ Hm) as Hne.
    assert (forall msg, msg <> "no-token" -> status (error_response msg) = 401 ->
              body (error_response msg) = [("error", VStr "invalid-token")]) as Herr.
    { intros msg Hmsg. unfold error_response.
      destruct (String.eqb_spec msg "no-token") as [->|_]; [contradiction|].
      destruct (String.eqb_spec msg "invalid-token") as [->|_]; cbn.
      - reflexivity.
      - discriminate. }
    destruct (verifyIdToken e tok db) as [[[p|msg] tv] db1] eqn:Hv.
    + destruct (brands_get e) as [docs|msg] eqn:Hb.
      * destruct (first_rejection (map (settles e) docs)) as [msg|] eqn:Hf.
        -- intros [= <- _ _] Hs. right. apply Herr; [|exact Hs].
           intros ->. clear -Hf Hsets.
           induction docs as [|doc docs IH]; [discriminate|].
           cbn in Hf. unfold settles at 1 in Hf.
           destruct (set_rejects e (adDocId doc.1)) as [m|] eqn:Hr.
           ++ injection Hf as ->. exact (Hsets _ Hr).
           ++ exact (IH Hf).
        -- intros [= <- _ _]. cbn. discriminate.
      * intros [= <- _ _] Hs. right. apply Herr; [|exact Hs].
        intros ->. apply Hbrands. reflexivity.
    + apply verifyIdToken_throws in Hv; [|exact Hne]. subst msg.
      intros [= <- _ _] _. right. reflexivity.
Qed.

Lemma no_token_unreachable_witness :
  brands_get b_fails <> Throw "no-token" /\
  (forall k, set_rejects b_fails k <> Some "no-token") /\
  status (json 401 [("error", VStr "invalid-token")]) = 401 /\
  (verifyIdToken b_fails "bad" db0).1.1 <> Throw "no-token" /\
  (body (json 401 [("error", VStr "invalid-token")])
   = [("error", VStr "missing-token")] \/
   body (json 401 [("error", VStr "invalid-token")])
   = [("error", VStr "invalid-token")]).
Proof.
  assert (brands_get b_fails <> Throw "no-token") as Hb by discriminate.
  assert (forall k, set_rejects b_fails k <> Some "no-token") as Hs.
  { intros k. cbn. destruct (String.eqb k "ad_b"); discriminate. }
  destruct (no_token_unreachable b_fails (Some "Bearer bad") db0) as [Hgate Hresp].
  split; [exact Hb|]. split; [exact Hs|]. split; [reflexivity|]. split.
  - apply (Hgate "bad"). reflexivity.
  - apply (Hresp Hb Hs _ [VerifyIdToken "bad" SERVICE_URL] db0); reflexivity.
Defined.

(** C9 fails on the code: the [catch] block looks at the message only, so
    when the token verifies and the brands read is rejected with an error
    named [no-token], the answer is 401 [{"error":"no-token"}]. *)
Lemma store_error_named_no_token :
  bearer_match (default "" hdr) = Some "good" /\
  is_Some (oauth_verify healthy "good" SERVICE_URL) /\
  brands_get (with_brands_error healthy "no-token") = Throw "no-token" /\
  run (with_brands_error healthy "no-token") hdr db0
  = (Return (json 401 [("error", VStr "no-token")]),
     [VerifyIdToken "good" SERVICE_URL; BrandsGet], db0).
Proof.
  split; [reflexivity|]. split; [vm_compute; eauto|].
  split; reflexivity.
Qed.

(** C10. On a 200 answer the run has issued, for each brand of the
    snapshot, one merge-write to the [ads] document whose id is ["ad_"]
    followed by the brand id; that document then carries the payload, every
    field of it other than [brandId], [brandName], [fetchedAt] and [source]
    is as before, and any other document, the brand documents among them,
    is untouched. *)
Theorem run_success_frame (e : env) (h : option string) (db db' : database)
    (r : response) (t : list call) :
  run e h db = (Return r, t, db') ->
  status r = 200 ->
  exists docs,
    brands_get e = Return docs /\
    writes_of t
    = map (fun doc => ("ad_" +:+ doc.1, adPayload e doc.1 doc.2)) docs /\
    (forall id, id ∈ docs.*1 ->
       exists d, db' !! ("ads", "ad_" +:+ id) = Some d /\
                 d !! "brandId" = Some (VStr id) /\
                 d !! "fetchedAt" = Some (VStr (now e)) /\
                 d !! "source" = Some (VStr "ads-fetcher-service") /\
                 is_Some (d !! "brandName") /\
                 forall f, f ∉ payload_fields ->
                   d !! f = default ∅ (db !! ("ads", "ad_" +:+ id)) !! f) /\
    (forall K, (forall id, id ∈ docs.*1 -> K <> ("ads", "ad_" +:+ id)) ->
       db' !! K = db !! K) /\
    (forall id, db' !! ("brands", id) = db !! ("brands", id)).
Proof.
  intros Hrun Hok.
  destruct (run_ok_inv e h db r t db' Hrun Hok)
    as (tok & p & tv & docs & _ & Hv & Hb & Hall & _ & -> & ->).
  exists docs. split; [exact Hb|]. split; [|split; [|split]].
  - rewrite writes_of_app. rewrite writes_of_verify.
    + cbn -[writes_of]. change (BrandsGet :: map (write_call e) docs)
        with ([BrandsGet] ++ map (write_call e) docs).
      rewrite writes_of_app. apply writes_of_write_calls.
    + pose proof (verifyIdToken_calls e tok db) as Hc. rewrite Hv in Hc. exact Hc.
  - intros id Hin.
    destruct (writes_present e docs db id Hin (Hall id Hin))
      as (d & Hd & H1 & H2 & H3 & H4).
    exists d. repeat (split; [assumption|]).
    intros f Hf. pose proof (writes_frame e docs db ("ads", adDocId id) f Hf) as Hfr.
    rewrite Hd in Hfr. exact Hfr.
  - intros K HK. apply writes_other. exact HK.
  - intros id. apply writes_other_collection. discriminate.
Qed.

Lemma run_success_frame_witness :
  run healthy hdr db0
  = (Return (json 200 [("status", VStr "ok"); ("processed", VNum 2)]),
     (run healthy hdr db0).1.2, (run healthy hdr db0).2) /\
  (run healthy hdr db0).2 !! ("brands", "a") = db0 !! ("brands", "a") /\
  writes_of (run healthy hdr db0).1.2
  = [("ad_a", adPayload healthy "a" brand_a);
     ("ad_b", adPayload healthy "b" brand_b)] /\
  exists d, (run healthy hdr db0).2 !! ("ads", "ad_b") = Some d /\
            d !! "brandId" = Some (VStr "b") /\
            d !! "source" = Some (VStr "ads-fetcher-service").
Proof.
  assert (run healthy hdr db0
          = (Return (json 200 [("status", VStr "ok"); ("processed", VNum 2)]),
             (run healthy hdr db0).1.2, (run healthy hdr db0).2)) as Hrun
    by (vm_compute; reflexivity).
  destruct (run_success_frame healthy hdr db0 _ _ _ Hrun eq_refl)
    as (docs & Hdocs & Hw & Hdoc & _ & Hbrands).
  injection Hdocs as <-.
  split; [exact Hrun|]. split; [apply Hbrands|]. split; [exact Hw|].
  destruct (Hdoc "b") as (d & Hd & Hid & _ & Hsrc & _).
  { apply list_elem_of_further, list_elem_of_here. }
  exists d. split; [exact Hd|]. split; [exact Hid | exact Hsrc].
Defined.

(** * Further properties of [app.js] *)

(** ** Parsing the audience list *)

Section Parsing.

Import Config.

Lemma split_comma_cons s : exists piece pieces, split_comma s = piece :: pieces.
Proof.
  induction s as [|c r IH]; cbn; [eauto|].
  destruct (is_comma c); [eauto|].
  destruct IH as (p & ps & ->). eauto.
Qed.

Lemma split_comma_no_comma s :
  Forall (fun piece => has_comma piece = false) (split_comma s).
Proof.
  induction s as [|c r IH]; cbn.
  - repeat constructor.
  - destruct (is_comma c) eqn:Hc.
    + constructor; [reflexivity | exact IH].
    + destruct (split_comma r) as [|p ps]; [repeat constructor; unfold has_comma; cbn; rewrite Hc; reflexivity|].
      apply Forall_cons in IH. destruct IH as [Hp Hps].
      constructor; [|exact Hps].
      unfold has_comma in *. cbn. rewrite Hc. exact Hp.
Qed.

Lemma split_comma_single a : has_comma a = false -> split_comma a = [a].
Proof.
  unfold has_comma. induction a as [|c r IH]; cbn; [reflexivity|].
  destruct (is_comma c); cbn; [discriminate|].
  intros H. rewrite IH by exact H. reflexivity.
Qed.

Lemma append_String c r x : String c r +:+ x = String c (r +:+ x).
Proof. reflexivity. Qed.

Lemma split_comma_app a s :
  has_comma a = false ->
  split_comma (a +:+ String "," s) = a :: split_comma s.
Proof.
  unfold has_comma. induction a as [|c r IH]; [reflexivity|].
  rewrite append_String. cbn [all_char split_comma].
  destruct (is_comma c); cbn [negb andb]; [discriminate|].
  intros H. rewrite IH by exact H. reflexivity.
Qed.

Lemma split_join l :
  l <> [] -> Forall (fun a => has_comma a = false) l ->
  split_comma (join_comma l) = l.
Proof.
  induction l as [|a rest IH]; [contradiction|].
  intros _ Hall. apply Forall_cons in Hall. destruct Hall as [Ha Hrest].
  destruct rest as [|b rest].
  - cbn. apply split_comma_single. exact Ha.
  - change (join_comma (a :: b :: rest))
      with (a +:+ String "," (join_comma (b :: rest))).
    rewrite split_comma_app by exact Ha.
    rewrite IH; [reflexivity | discriminate | exact Hrest].
Qed.

Lemma trim_start_head s c :
  head_char (trim_start s) = Some c -> is_space c = false.
Proof.
  induction s as [|a r IH]; cbn; [discriminate|].
  destruct (is_space a) eqn:Ha; [exact IH|].
  cbn. intros [= <-]. exact Ha.
Qed.

Lemma trim_end_head s c :
  head_char s = Some c -> is_space c = false ->
  head_char (trim_end s) = Some c.
Proof.
  destruct s as [|a r]; cbn; [discriminate|].
  intros [= ->] Hc. destruct (trim_end r); [rewrite Hc|]; reflexivity.
Qed.

Lemma trim_end_last s c :
  last_char (trim_end s) = Some c -> is_space c = false.
Proof.
  induction s as [|a r IH]; cbn; [discriminate|].
  destruct (trim_end r) as [|b r'] eqn:Hr.
  - destruct (is_space a) eqn:Ha; cbn; [discriminate|].
    intros [= <-]. exact Ha.
  - exact IH.
Qed.

Lemma trim_end_empty s : trim_end s = "" -> head_char s = None \/
  exists c, head_char s = Some c /\ is_space c = true.
Proof.
  destruct s as [|a r]; cbn; [auto|].
  destruct (trim_end r); [|discriminate].
  destruct (is_space a) eqn:Ha; [|discriminate]. eauto.
Qed.

Lemma trim_start_fixed s :
  (forall c, head_char s = Some c -> is_space c = false) -> trim_start s = s.
Proof.
  destruct s as [|a r]; cbn; [reflexivity|].
  intros H. rewrite (H a eq_refl). reflexivity.
Qed.

Lemma trim_end_fixed s :
  (forall c, last_char s = Some c -> is_space c = false) -> trim_end s = s.
Proof.
  induction s as [|a r IH]; [reflexivity|].
  intros H. cbn [trim_end]. destruct r as [|b r'].
  - cbn. cbn in H. rewrite (H a eq_refl). reflexivity.
  - rewrite IH by exact H. reflexivity.
Qed.

Lemma trim_start_no_comma s : has_comma s = false -> has_comma (trim_start s) = false.
Proof.
  unfold has_comma. induction s as [|a r IH]; [reflexivity|].
  cbn [trim_start]. destruct (is_space a); [|auto].
  cbn. destruct (is_comma a); cbn; [discriminate | exact IH].
Qed.

Lemma trim_end_no_comma s : has_comma s = false -> has_comma (trim_end s) = false.
Proof.
  unfold has_comma. induction s as [|a r IH]; [reflexivity|].
  cbn. destruct (is_comma a) eqn:Ha; cbn; [discriminate|].
  intros H. specialize (IH H).
  destruct (trim_end r) as [|b r'].
  - destruct (is_space a); cbn; [reflexivity|]. rewrite Ha. reflexivity.
  - cbn [all_char]. rewrite Ha. exact IH.
Qed.

Lemma trim_clean s : trim s <> "" -> has_comma s = false -> clean (trim s).
Proof.
  intros Hne Hc. unfold clean, trim in *.
  split; [exact Hne|]. split; [apply trim_end_no_comma, trim_start_no_comma, Hc|].
  split; [|apply trim_end_last].
  intros c Hh.
  destruct (head_char (trim_start s)) as [a|] eqn:Ha.
  - pose proof (trim_start_head s a Ha) as Hsp.
    rewrite (trim_end_head _ a Ha Hsp) in Hh. injection Hh as <-. exact Hsp.
  - destruct (trim_start s); [contradiction | discriminate].
Qed.

Lemma trim_of_clean a : clean a -> trim a = a.
Proof.
  intros (_ & _ & Hh & Hl). unfold trim.
  rewrite trim_start_fixed by exact Hh. apply trim_end_fixed. exact Hl.
Qed.

Lemma trim_start_spaces s : all_char is_space s = true -> trim_start s = "".
Proof.
  induction s as [|a r IH]; [reflexivity|].
  cbn. destruct (is_space a); cbn; [exact IH | discriminate].
Qed.

Lemma split_comma_blank s :
  blank s = true -> Forall (fun piece => all_char is_space piece = true) (split_comma s).
Proof.
  unfold blank. induction s as [|c r IH]; cbn.
  - intros _. repeat constructor.
  - destruct (is_comma c) eqn:Hc.
    + rewrite orb_true_r. cbn. intros H. constructor; [reflexivity | exact (IH H)].
    + rewrite orb_false_r. destruct (is_space c) eqn:Hs; cbn; [|discriminate].
      intros H. specialize (IH H).
      destruct (split_comma r) as [|p ps]; [repeat constructor; cbn; rewrite Hs; reflexivity|].
      apply Forall_cons in IH. destruct IH as [Hp Hps].
      constructor; [|exact Hps]. cbn. rewrite Hs. exact Hp.
Qed.

Lemma parse_blank s : blank s = true -> parse_audiences (Some s) = [].
Proof.
  intros Hb. unfold parse_audiences. change (default "" (Some s)) with s.
  pose proof (split_comma_blank s Hb) as Hall.
  induction Hall as [|p ps Hp _ IH]; [reflexivity|].
  cbn. unfold trim at 1. rewrite (trim_start_spaces p Hp). cbn. exact IH.
Qed.

Lemma parse_elem v a :
  a ∈ parse_audiences v ->
  exists piece, piece ∈ split_comma (default "" v) /\ a = trim piece /\ a <> "".
Proof.
  unfold parse_audiences. intros Hin.
  apply list_elem_of_In, filter_In in Hin. destruct Hin as [Hin Hne].
  apply in_map_iff in Hin. destruct Hin as (piece & <- & Hp).
  exists piece. split; [apply list_elem_of_In; exact Hp|]. split; [reflexivity|].
  intros Heq. rewrite Heq in Hne. discriminate.
Qed.

End Parsing.

(** ** Properties of the configuration *)

(** X1. When [EXPECT_AUDIENCES] is unset, empty, or made of commas and white
    space only, the audience list is empty and [/run] rejects every bearer
    token with 401 [{"error":"invalid-token"}], without calling the token
    verifier or the store. *)
Theorem blank_audiences_reject_all (v : option string) (e : env)
    (db : database) (h tok : string) :
  (v = None \/ exists s, v = Some s /\ Config.blank s = true) ->
  bearer_match h = Some tok ->
  Config.parse_audiences v = [] /\
  run (configured v e) (Some h) db
  = (Return (json 401 [("error", VStr "invalid-token")]), [], db).
Proof.
  intros Hv Hm.
  assert (Config.parse_audiences v = []) as Hnil.
  { destruct Hv as [->|(s & -> & Hb)]; [reflexivity | apply parse_blank; exact Hb]. }
  split; [exact Hnil|].
  rewrite run_eq. unfold run_result. change (default "" (Some h)) with h.
  rewrite Hm. unfold verifyIdToken.
  pose proof (bearer_match_nonempty _ _ Hm) as Hne.
  apply eqb_empty_false in Hne. rewrite Hne.
  cbn [EXPECT_AUDIENCES configured]. rewrite Hnil. reflexivity.
Qed.

Lemma blank_audiences_reject_all_witness :
  Config.blank " , ,," = true /\
  bearer_match "Bearer good" = Some "good" /\
  run (configured (Some " , ,,") healthy) (Some "Bearer good") db0
  = (Return (json 401 [("error", VStr "invalid-token")]), [], db0) /\
  run (configured None healthy) (Some "Bearer good") db0
  = (Return (json 401 [("error", VStr "invalid-token")]), [], db0).
Proof.
  split; [reflexivity|]. split; [reflexivity|]. split.
  - apply (blank_audiences_reject_all (Some " , ,,") healthy db0 "Bearer good" "good");
      [right; exists " , ,,"; split; reflexivity | reflexivity].
  - apply (blank_audiences_reject_all None healthy db0 "Bearer good" "good");
      [left; reflexivity | reflexivity].
Defined.

(** X2. Every configured audience is a trimmed piece of the variable: it is
    not empty, holds no comma, and neither starts nor ends with white
    space. *)
Theorem parsed_audiences_clean (v : option string) (a : string) :
  a ∈ Config.parse_audiences v -> Config.clean a.
Proof.
  intros Hin. destruct (parse_elem v a Hin) as (piece & Hp & -> & Hne).
  apply trim_clean; [exact Hne|].
  pose proof (split_comma_no_comma (default "" v)) as Hall.
  rewrite Forall_forall in Hall. apply Hall. exact Hp.
Qed.

Lemma parsed_audiences_clean_witness :
  Config.parse_audiences (Some " https://a.example , ,https://b.example,")
  = ["https://a.example"; "https://b.example"] /\
  Config.clean "https://a.example".
Proof.
  split; [reflexivity|].
  apply (parsed_audiences_clean (Some " https://a.example , ,https://b.example,")).
  vm_compute. apply list_elem_of_here.
Defined.

(** X3. Round trip: audiences that are not empty, hold no comma and have no
    white space at either end, once joined with commas into the variable,
    are read back as the same list in the same order. *)
Theorem parse_join_round_trip (l : list string) :
  Forall Config.clean l ->
  Config.parse_audiences (Some (Config.join_comma l)) = l.
Proof.
  intros Hall. destruct l as [|a rest]; [reflexivity|].
  unfold Config.parse_audiences. change (default "" (Some ?s)) with s.
  rewrite split_join.
  - induction Hall as [|b l Hb _ IH]; [reflexivity|].
    cbn [map]. rewrite (trim_of_clean b Hb). cbn [List.filter]. cbv beta.
    destruct Hb as (Hne & _). apply eqb_empty_false in Hne. rewrite Hne.
    cbn [negb]. rewrite IH. reflexivity.
  - discriminate.
  - eapply Forall_impl; [exact Hall|]. intros b Hb. apply Hb.
Qed.

Lemma parse_join_round_trip_witness :
  Forall Config.clean ["https://a.example"; "https://b.example/x y"] /\
  Config.parse_audiences (Some "https://a.example,https://b.example/x y")
  = ["https://a.example"; "https://b.example/x y"].
Proof.
  assert (Forall Config.clean ["https://a.example"; "https://b.example/x y"]) as Hall.
  { repeat apply Forall_cons_2; try apply Forall_nil_2;
      (split; [discriminate|]; split; [reflexivity|];
       split; intros c [= <-]; reflexivity). }
  split; [exact Hall|]. exact (parse_join_round_trip _ Hall).
Defined.

(** X4. The project id is never empty: it is [GCP_PROJECT] when that is set
    and not empty, else [GCLOUD_PROJECT] when that is set and not empty,
    else ['closer-video-similarity']; an empty [GCP_PROJECT] does not mask
    [GCLOUD_PROJECT]. *)
Theorem projectId_never_empty (GCP_PROJECT GCLOUD_PROJECT : option string) :
  exists p, Config.projectId GCP_PROJECT GCLOUD_PROJECT = Some p /\ p <> "" /\
    (forall s, GCP_PROJECT = Some s -> s <> "" -> p = s) /\
    ((GCP_PROJECT = None \/ GCP_PROJECT = Some "") ->
     (forall s, GCLOUD_PROJECT = Some s -> s <> "" -> p = s) /\
     ((GCLOUD_PROJECT = None \/ GCLOUD_PROJECT = Some "") ->
      p = "closer-video-similarity")).
Proof.
  assert (forall s, s <> "" -> String.eqb s "" = false) as Hv
    by (intros s Hs; apply eqb_empty_false; exact Hs).
  unfold Config.projectId, Config.or_var.
  destruct GCP_PROJECT as [a|]; [destruct (String.eqb_spec a "") as [->|Ha]|];
    (destruct GCLOUD_PROJECT as [b|]; [destruct (String.eqb_spec b "") as [->|Hb]|]);
    rewrite ?Hv by assumption;
    (eexists; split; [reflexivity|]);
    (split; [first [assumption | discriminate]|]);
    (split; [intros s Hs Hne; congruence|]);
    (intros Hgcp; split; [intros s Hs Hne; destruct Hgcp; congruence|]);
    intros Hc; destruct Hgcp, Hc; congruence.
Qed.

Lemma projectId_never_empty_witness :
  Config.projectId (Some "") (Some "my-project") = Some "my-project" /\
  Config.projectId None (Some "") = Some "closer-video-similarity".
Proof.
  split.
  - destruct (projectId_never_empty (Some "") (Some "my-project"))
      as (p & Hp & _ & _ & Hrest).
    destruct (Hrest (or_intror eq_refl)) as [Hcloud _].
    rewrite Hp. f_equal. apply (Hcloud "my-project"); [reflexivity | discriminate].
  - destruct (projectId_never_empty None (Some "")) as (p & Hp & _ & _ & Hrest).
    destruct (Hrest (or_introl eq_refl)) as [_ Hdef].
    rewrite Hp. f_equal. apply Hdef. right. reflexivity.
Defined.

(** ** Properties of the gate *)

(** X5. [verifyIdToken] tries the audiences in their configured order and
    stops at the first that accepts: it returns that audience's payload, has
    called the verifier exactly for the audiences up to and including it,
    and leaves the database alone. *)
Theorem verify_first_audience (e : env) (tok payload : string)
    (db db' : database) (t : list call) :
  verifyIdToken e tok db = (Return payload, t, db') ->
  exists pre aud post,
    EXPECT_AUDIENCES e = pre ++ aud :: post /\
    (forall a, a ∈ pre -> oauth_verify e tok a = None) /\
    oauth_verify e tok aud = Some payload /\
    t = map (VerifyIdToken tok) (pre ++ [aud]) /\
    db' = db.
Proof.
  intros Hv. pose proof (verifyIdToken_db e tok db) as Hdb.
  rewrite Hv in Hdb. cbn in Hdb. subst db'.
  unfold verifyIdToken in Hv. destruct (String.eqb tok ""); [discriminate|].
  destruct (try_audiences_first e tok _ db payload t db Hv)
    as (pre & aud & post & H1 & H2 & H3 & H4).
  exists pre, aud, post. auto.
Qed.

Lemma verify_first_audience_witness :
  verifyIdToken (configured (Some "https://other.example, https://ads-fetcher.example ,https://late.example") healthy)
                "good" db0
  = (Return "invoker",
     [VerifyIdToken "good" "https://other.example";
      VerifyIdToken "good" "https://ads-fetcher.example"], db0) /\
  exists pre aud post,
    ["https://other.example"; "https://ads-fetcher.example"; "https://late.example"]
    = pre ++ aud :: post /\
    oauth_verify healthy "good" aud = Some "invoker".
Proof.
  assert (verifyIdToken (configured (Some "https://other.example, https://ads-fetcher.example ,https://late.example") healthy)
                        "good" db0
          = (Return "invoker",
             [VerifyIdToken "good" "https://other.example";
              VerifyIdToken "good" "https://ads-fetcher.example"], db0)) as Hv
    by reflexivity.
  split; [exact Hv|].
  destruct (verify_first_audience _ _ _ _ _ _ Hv)
    as (pre & aud & post & Hauds & _ & Hok & _).
  exists pre, aud, post. split; [exact Hauds | exact Hok].
Defined.

(** X6. The only token [/run] ever submits to the verifier is the header
    with ["Bearer "] removed, whole; it is never empty, holds no line
    terminator, and is checked against configured audiences only. *)
Theorem verified_token_is_header_token (e : env) (h : option string)
    (db : database) (tok aud : string) :
  VerifyIdToken tok aud ∈ (run e h db).1.2 ->
  h = Some ("Bearer " +:+ tok) /\ tok <> "" /\ all_dot tok = true /\
  aud ∈ EXPECT_AUDIENCES e.
Proof.
  rewrite run_eq. unfold run_result.
  destruct (bearer_match (default "" h)) as [tk|] eqn:Hm.
  2:{ cbn. intros H. apply elem_of_nil in H. contradiction. }
  assert (VerifyIdToken tok aud ∈ (verifyIdToken e tk db).1.2 ->
          h = Some ("Bearer " +:+ tok) /\ tok <> "" /\ all_dot tok = true /\
          aud ∈ EXPECT_AUDIENCES e) as Hgate.
  { intros Hin. destruct (verifyIdToken_trace e tk db _ Hin) as (a & [= <- <-] & Ha).
    apply bearer_match_Some in Hm. destruct Hm as (Hh & Hne & Hd).
    destruct h as [hs|]; cbn in Hh; [|discriminate].
    subst hs. auto. }
  pose proof (verifyIdToken_calls e tk db) as Hc.
  destruct (verifyIdToken e tk db) as [[[p|msg] tv] db1]; cbn in Hgate, Hc.
  - destruct (brands_get e) as [docs|msg]; cbn; intros Hin;
      apply elem_of_app in Hin; (destruct Hin as [Hin|Hin]; [exact (Hgate Hin)|]);
      exfalso.
    + apply elem_of_cons in Hin. destruct Hin as [[=]|Hin].
      pose proof (write_calls_are_sets e docs) as Hs.
      rewrite forallb_forall in Hs.
      apply list_elem_of_In in Hin. specialize (Hs _ Hin). discriminate.
    + apply list_elem_of_singleton in Hin. discriminate.
  - cbn. exact Hgate.
Qed.

Lemma verified_token_is_header_token_witness :
  VerifyIdToken "a b" SERVICE_URL ∈ (run healthy (Some "Bearer a b") db0).1.2 /\
  all_dot "a b" = true /\ SERVICE_URL ∈ EXPECT_AUDIENCES healthy.
Proof.
  assert (VerifyIdToken "a b" SERVICE_URL
          ∈ (run healthy (Some "Bearer a b") db0).1.2) as Hin
    by (vm_compute; apply list_elem_of_here).
  split; [exact Hin|].
  destruct (verified_token_is_header_token healthy _ db0 _ _ Hin) as (_ & _ & Hd & Ha).
  split; [exact Hd | exact Ha].
Defined.

(** X7. A bearer token that holds a line terminator is not truncated at it:
    the header does not match and the answer is 401
    [{"error":"missing-token"}], with no call. *)
Theorem line_terminator_in_token (e : env) (db : database) (tok : string) :
  all_dot tok = false ->
  run e (Some ("Bearer " +:+ tok)) db
  = (Return (json 401 [("error", VStr "missing-token")]), [], db).
Proof.
  intros Hd. rewrite run_eq. unfold run_result.
  change (default "" (Some ?s)) with s.
  destruct (bearer_match ("Bearer " +:+ tok)) as [tk|] eqn:Hm; [|reflexivity].
  apply bearer_match_Some in Hm. destruct Hm as (Heq & _ & Hd').
  apply append_cancel in Heq. subst tk. congruence.
Qed.

Lemma line_terminator_in_token_witness :
  all_dot (String "g" (String "010" "ood")) = false /\
  run healthy (Some ("Bearer " +:+ String "g" (String "010" "ood"))) db0
  = (Return (json 401 [("error", VStr "missing-token")]), [], db0) /\
  run healthy (Some ("Bearer " +:+ String "g" (String "o" (String "o" (String "d" (String "013" ""))))))
      db0
  = (Return (json 401 [("error", VStr "missing-token")]), [], db0).
Proof.
  split; [reflexivity|]. split.
  - apply (line_terminator_in_token healthy db0). reflexivity.
  - apply (line_terminator_in_token healthy db0). reflexivity.
Defined.

(** X8. No store access without a verified token: if a run reads the
    brands, issues a write or changes the database, then its header is
    ["Bearer "] followed by a token that a configured audience accepts. *)
Theorem store_access_needs_verified_token (e : env) (h : option string)
    (db : database) :
  (BrandsGet ∈ (run e h db).1.2 \/
   (exists k d, AdSet k d ∈ (run e h db).1.2) \/
   (run e h db).2 <> db) ->
  exists tok aud,
    h = Some ("Bearer " +:+ tok) /\ aud ∈ EXPECT_AUDIENCES e /\
    is_Some (oauth_verify e tok aud).
Proof.
  rewrite run_eq. unfold run_result.
  destruct (bearer_match (default "" h)) as [tk|] eqn:Hm.
  2:{ cbn. intros [H|[(k & d & H)|H]];
        [apply elem_of_nil in H | apply elem_of_nil in H | ]; contradiction. }
  pose proof (verifyIdToken_calls e tk db) as Hc.
  destruct (verifyIdToken e tk db) as [[[p|msg] tv] db1] eqn:Hv; cbn in Hc.
  - intros _. destruct (verifyIdToken_accepting e tk p tv db db1 Hv)
      as (aud & Hin & Hok).
    apply bearer_match_Some in Hm. destruct Hm as (Hh & _).
    destruct h as [hs|]; cbn in Hh; [|discriminate]. subst hs.
    exists tk, aud. split; [reflexivity|]. split; [exact Hin|].
    rewrite Hok. eauto.
  - cbn. intros [H|[(k & d & H)|H]]; [| |contradiction];
      apply (verify_only_no_store tv _ Hc) in H; discriminate.
Qed.

Lemma store_access_needs_verified_token_witness :
  BrandsGet ∈ (run healthy hdr db0).1.2 /\
  exists tok aud,
    hdr = Some ("Bearer " +:+ tok) /\ aud ∈ EXPECT_AUDIENCES healthy /\
    is_Some (oauth_verify healthy tok aud).
Proof.
  assert (BrandsGet ∈ (run healthy hdr db0).1.2) as Hin
    by (vm_compute; apply list_elem_of_further, list_elem_of_here).
  split; [exact Hin|].
  exact (store_access_needs_verified_token healthy hdr db0 (or_introl Hin)).
Defined.

(** X9. The calls of a run come in a fixed order: first calls to the token
    verifier only, then at most one read of the brands, then writes only.
    No write precedes the read and the brands are never read twice. *)
Theorem run_trace_shape (e : env) (h : option string) (db : database) :
  exists tv ws,
    forallb is_verify tv = true /\ forallb is_set ws = true /\
    ((run e h db).1.2 = tv /\ ws = [] \/
     (run e h db).1.2 = tv ++ BrandsGet :: ws).
Proof.
  rewrite run_eq. unfold run_result.
  destruct (bearer_match (default "" h)) as [tk|].
  2:{ exists [], []. cbn. auto. }
  pose proof (verifyIdToken_calls e tk db) as Hc.
  destruct (verifyIdToken e tk db) as [[[p|msg] tv] db1]; cbn in Hc.
  - destruct (brands_get e) as [docs|msg]; cbn.
    + exists tv, (map (write_call e) docs).
      split; [exact Hc|]. split; [apply write_calls_are_sets | auto].
    + exists tv, []. auto.
  - exists tv, []. cbn. auto.
Qed.

(** ** Properties of the batch *)

(** X10. When the token verifies but the brands cannot be read, the run
    stops there: the answer carries the error's message, with status 401 if
    that message is ['no-token'] or ['invalid-token'] and 500 otherwise, no
    write is issued and the database is unchanged. *)
Theorem brands_failure_stops_run (e : env) (h : option string) (tok message : string)
    (db : database) :
  bearer_match (default "" h) = Some tok ->
  (exists aud, aud ∈ EXPECT_AUDIENCES e /\ is_Some (oauth_verify e tok aud)) ->
  brands_get e = Throw message ->
  exists r tv,
    run e h db = (Return r, tv ++ [BrandsGet], db) /\
    forallb is_verify tv = true /\
    body r = [("error", VStr message)] /\
    status r = (if decide (message = "no-token" \/ message = "invalid-token")
                then 401 else 500).
Proof.
  intros Hm Hex Hb.
  assert (tok <> "") as Hne by (eapply bearer_match_nonempty; exact Hm).
  apply eqb_empty_false in Hne.
  destruct (try_audiences_accept e tok (EXPECT_AUDIENCES e) db Hex) as (p & tv & Hv).
  assert (verifyIdToken e tok db = (Return p, tv, db)) as Hv'
    by (unfold verifyIdToken; rewrite Hne; exact Hv).
  pose proof (run_eq e h db) as Hrun. unfold run_result in Hrun.
  rewrite Hm, Hv', Hb in Hrun.
  exists (error_response message), tv. split; [exact Hrun|]. split; [|split].
  - pose proof (verifyIdToken_calls e tok db) as Hc. rewrite Hv' in Hc. exact Hc.
  - apply error_response_body.
  - unfold error_response.
    destruct (String.eqb_spec message "no-token") as [->|H1]; cbn.
    + destruct (decide _) as [_|Hn]; [reflexivity|]. exfalso. apply Hn. auto.
    + destruct (String.eqb_spec message "invalid-token") as [->|H2]; cbn.
      * destruct (decide _) as [_|Hn]; [reflexivity|]. exfalso. apply Hn. auto.
      * destruct (decide _) as [[?|?]|_]; [contradiction | contradiction | reflexivity].
Qed.

Lemma brands_failure_stops_run_witness :
  run (with_brands_error healthy "4 DEADLINE_EXCEEDED") hdr db0
  = (Return (json 500 [("error", VStr "4 DEADLINE_EXCEEDED")]),
     [VerifyIdToken "good" SERVICE_URL; BrandsGet], db0) /\
  exists r tv,
    run (with_brands_error healthy "invalid-token") hdr db0
    = (Return r, tv ++ [BrandsGet], db0) /\ status r = 401.
Proof.
  split; [reflexivity|].
  destruct (brands_failure_stops_run (with_brands_error healthy "invalid-token")
              hdr "good" "invalid-token" db0 eq_refl)
    as (r & tv & Hrun & _ & _ & Hst).
  - exists SERVICE_URL. split; [apply list_elem_of_here | vm_compute; eauto].
  - reflexivity.
  - exists r, tv. split; [exact Hrun | exact Hst].
Defined.

(** X11. An empty brand list is not an error: with a verified token the
    answer is 200 [{status:"ok", processed:0}], no write is issued and the
    database is unchanged. *)
Theorem empty_brand_list (e : env) (h : option string) (tok : string)
    (db : database) :
  bearer_match (default "" h) = Some tok ->
  (exists aud, aud ∈ EXPECT_AUDIENCES e /\ is_Some (oauth_verify e tok aud)) ->
  brands_get e = Return [] ->
  exists tv,
    run e h db
    = (Return (json 200 [("status", VStr "ok"); ("processed", VNum 0)]),
       tv ++ [BrandsGet], db) /\
    forallb is_verify tv = true.
Proof.
  intros Hm Hex Hb.
  assert (tok <> "") as Hne by (eapply bearer_match_nonempty; exact Hm).
  apply eqb_empty_false in Hne.
  destruct (try_audiences_accept e tok (EXPECT_AUDIENCES e) db Hex) as (p & tv & Hv).
  assert (verifyIdToken e tok db = (Return p, tv, db)) as Hv'
    by (unfold verifyIdToken; rewrite Hne; exact Hv).
  pose proof (run_eq e h db) as Hrun. unfold run_result in Hrun.
  rewrite Hm, Hv', Hb in Hrun.
  exists tv. split; [exact Hrun|].
  pose proof (verifyIdToken_calls e tok db) as Hc. rewrite Hv' in Hc. exact Hc.
Qed.

Lemma empty_brand_list_witness :
  bearer_match (default "" hdr) = Some "good" /\
  brands_get (with_brands healthy []) = Return [] /\
  exists tv,
    run (with_brands healthy []) hdr db0
    = (Return (json 200 [("status", VStr "ok"); ("processed", VNum 0)]),
       tv ++ [BrandsGet], db0).
Proof.
  split; [reflexivity|]. split; [reflexivity|].
  destruct (empty_brand_list (with_brands healthy []) hdr "good" db0 eq_refl)
    as (tv & Hrun & _).
  - exists SERVICE_URL. split; [apply list_elem_of_here | vm_compute; eauto].
  - reflexivity.
  - exists tv. exact Hrun.
Defined.

(** X12. A run never deletes: every document that exists before the run
    exists after it with at least the same fields, and a field keeps its
    value unless it is one of the four payload fields of a document of
    [ads]. *)
Theorem run_never_deletes (e : env) (h : option string) (db : database)
    (K : string * string) (d : document) :
  db !! K = Some d ->
  exists d', (run e h db).2 !! K = Some d' /\
             dom d ⊆ dom d' /\
             forall f, K.1 <> "ads" \/ f ∉ payload_fields -> d' !! f = d !! f.
Proof.
  intros Hd. destruct (run_db e h db) as [->|(docs & ->)].
  - exists d. split; [exact Hd|]. split; [reflexivity | reflexivity].
  - destruct (writes_keep e docs db K d Hd) as (d' & Hd' & Hsub).
    exists d'. split; [exact Hd'|]. split; [exact Hsub|].
    intros f [HK|Hf].
    + destruct K as [c k]. cbn in HK.
      rewrite (writes_other_collection e docs db c k HK), Hd in Hd'.
      injection Hd' as <-. reflexivity.
    + pose proof (writes_frame e docs db K f Hf) as Hfr.
      rewrite Hd', Hd in Hfr. exact Hfr.
Qed.

Lemma run_never_deletes_witness :
  db0 !! ("ads", "ad_a") = Some {[ "faces" := VNum 3; "fetchedAt" := VStr "old" ]} /\
  exists d', (run healthy hdr db0).2 !! ("ads", "ad_a") = Some d' /\
             d' !! "faces" = Some (VNum 3).
Proof.
  assert (db0 !! ("ads", "ad_a")
          = Some ({[ "faces" := VNum 3; "fetchedAt" := VStr "old" ]} : document)) as Hd
    by (vm_compute; reflexivity).
  split; [exact Hd|].
  destruct (run_never_deletes healthy hdr db0 _ _ Hd) as (d' & Hd' & _ & Hf).
  exists d'. split; [exact Hd'|].
  rewrite (Hf "faces").
  - vm_compute. reflexivity.
  - right. unfold payload_fields. rewrite !not_elem_of_cons.
    repeat split; try discriminate. apply not_elem_of_nil.
Defined.

(** X13. After a 200 answer over brands with distinct ids, the document
    [ads/ad_<id>] of each brand is the payload merged over what was there,
    so a brand that had no such document gets exactly the four payload
    fields.  Its [brandName] is the brand's [name] when that is truthy and
    [null] otherwise: a missing, empty, zero or false name is stored as
    [null]. *)
Theorem ad_document_after_success (e : env) (h : option string)
    (db db' : database) (r : response) (t : list call)
    (docs : list (string * document)) (id : string) (brand : document) :
  run e h db = (Return r, t, db') ->
  status r = 200 ->
  brands_get e = Return docs ->
  NoDup docs.*1 ->
  (id, brand) ∈ docs ->
  db' !! ("ads", adDocId id)
  = Some (adPayload e id brand ∪ default ∅ (db !! ("ads", adDocId id))) /\
  (db !! ("ads", adDocId id) = None ->
   db' !! ("ads", adDocId id) = Some (adPayload e id brand)) /\
  (forall d, db' !! ("ads", adDocId id) = Some d ->
     d !! "brandName"
     = Some (match brand !! "name" with
             | Some v => if truthy v then v else VNull
             | None => VNull
             end)).
Proof.
  intros Hrun Hok Hdocs Hnd Hin.
  destruct (run_ok_inv e h db r t db' Hrun Hok)
    as (tok & p & tv & docs' & _ & _ & Hb' & Hall & _ & _ & ->).
  rewrite Hdocs in Hb'. injection Hb' as <-.
  assert (id ∈ docs.*1) as Hid by (apply (list_elem_of_fmap_2 fst) in Hin; exact Hin).
  pose proof (writes_accepted e docs db id brand Hnd Hin (Hall id Hid)) as Hdoc.
  split; [exact Hdoc|]. split.
  - intros Hnone. rewrite Hdoc, Hnone. cbn [default from_option].
    rewrite (right_id_L ∅ (∪)). reflexivity.
  - intros d Hd. rewrite Hdoc in Hd. injection Hd as <-.
    apply lookup_union_Some_l. apply adPayload_brandName.
Qed.

Lemma ad_document_after_success_witness :
  NoDup [("a", brand_a); ("b", brand_b)].*1 /\
  (run healthy hdr db0).2 !! ("ads", adDocId "b") = Some (adPayload healthy "b" brand_b) /\
  adPayload healthy "b" brand_b !! "brandName" = Some VNull /\
  exists d, (run healthy hdr db0).2 !! ("ads", adDocId "a") = Some d /\
            d !! "brandName" = Some (VStr "Acme").
Proof.
  assert (run healthy hdr db0
          = (Return (json 200 [("status", VStr "ok"); ("processed", VNum 2)]),
             (run healthy hdr db0).1.2, (run healthy hdr db0).2)) as Hrun
    by (vm_compute; reflexivity).
  assert (NoDup [("a", brand_a); ("b", brand_b)].*1) as Hnd.
  { cbn. apply NoDup_cons. split.
    - intros H. apply list_elem_of_singleton in H. discriminate.
    - apply NoDup_singleton. }
  split; [exact Hnd|].
  destruct (ad_document_after_success healthy hdr db0 _ _ _ _ "b" brand_b
              Hrun eq_refl eq_refl Hnd) as (_ & Hnew & Hname_b).
  { apply list_elem_of_further, list_elem_of_here. }
  destruct (ad_document_after_success healthy hdr db0 _ _ _ _ "a" brand_a
              Hrun eq_refl eq_refl Hnd) as (Hdoc_a & _ & Hname_a).
  { apply list_elem_of_here. }
  assert ((run healthy hdr db0).2 !! ("ads", adDocId "b")
          = Some (adPayload healthy "b" brand_b)) as Hb
    by (apply Hnew; vm_compute; reflexivity).
  split; [exact Hb|]. split.
  - exact (Hname_b _ Hb).
  - eexists. split; [exact Hdoc_a|]. apply (Hname_a _ Hdoc_a).
Defined.

(** X14. With distinct brand ids the effect of a run on the database does
    not depend on the order in which the brands query lists the brands. *)
Theorem run_order_independent (e : env) (h : option string) (db : database)
    (docs docs' : list (string * document)) :
  brands_get e = Return docs ->
  NoDup docs.*1 ->
  docs ≡ₚ docs' ->
  (run (with_brands e docs') h db).2 = (run e h db).2.
Proof.
  intros Hb Hnd Hperm. rewrite !run_eq. unfold run_result.
  destruct (bearer_match (default "" h)) as [tk|]; [|reflexivity].
  rewrite verifyIdToken_with_brands.
  destruct (verifyIdToken e tk db) as [[[p|msg] tv] db1]; [|reflexivity].
  rewrite Hb. cbn [brands_get with_brands snd].
  symmetry. apply (writes_permutation e docs docs' db Hnd Hperm).
Qed.

Lemma run_order_independent_witness :
  NoDup [("a", brand_a); ("b", brand_b)].*1 /\
  [("a", brand_a); ("b", brand_b)] ≡ₚ [("b", brand_b); ("a", brand_a)] /\
  (run (with_brands b_fails [("b", brand_b); ("a", brand_a)]) hdr db0).2
  = (run b_fails hdr db0).2.
Proof.
  assert (NoDup [("a", brand_a); ("b", brand_b)].*1) as Hnd.
  { cbn. apply NoDup_cons. split.
    - intros H. apply list_elem_of_singleton in H. discriminate.
    - apply NoDup_singleton. }
  assert ([("a", brand_a); ("b", brand_b)] ≡ₚ [("b", brand_b); ("a", brand_a)])
    as Hperm by apply perm_swap.
  split; [exact Hnd|]. split; [exact Hperm|].
  exact (run_order_independent b_fails hdr db0 _ _ eq_refl Hnd Hperm).
Defined.
